(** * Text-to-speech reader/recorder: voice catalog, line dispatch, WAV encoder

    Shallow embedding of the script block of the Vue component
    (first revision, [populateVoiceList], [startWavRecorder], [speak],
    [readAloud]) and the properties of its specification. *)

From Stdlib Require Import ZArith NArith List Bool Lia String Ascii.
From Stdlib Require Import Sorting.Sorted Sorting.Permutation.
From Stdlib Require Import Floats.SpecFloat.
From coqutil Require Import Byte Word.LittleEndianList.
From coqutil Require Datatypes.List.
Import ListNotations.

Local Open Scope list_scope.

(* ===================================================================== *)
(** * JavaScript strings *)
(* ===================================================================== *)

(** A JavaScript string is a sequence of UTF-16 code units.  The operations
    below are the [String.prototype] methods the component calls. *)
Module JsString.

Definition code_unit := N.
Definition t := list code_unit.

(** An ASCII literal of the source, e.g. ['Speaker 1:']. *)
Definition lit (s : string) : t := map N_of_ascii (list_ascii_of_string s).

(** [a === b] on strings. *)
Fixpoint eqb (a b : t) : bool :=
  match a, b with
  | [], [] => true
  | x :: a', y :: b' => N.eqb x y && eqb a' b'
  | _, _ => false
  end.

(** [s.startsWith(p)] *)
Fixpoint startsWith (s p : t) : bool :=
  match p, s with
  | [], _ => true
  | _ :: _, [] => false
  | x :: p', y :: s' => N.eqb x y && startsWith s' p'
  end.

(** [s.includes(p)] *)
Fixpoint includes (s p : t) : bool :=
  startsWith s p ||
  match s with
  | [] => false
  | _ :: s' => includes s' p
  end.

(** ECMAScript WhiteSpace and LineTerminator code points: the set removed by
    [trim()] and matched by the regular expression class [\s]. *)
Definition is_whitespace (c : code_unit) : bool :=
  ((9 <=? c) && (c <=? 13) || (c =? 32) || (c =? 160) || (c =? 5760) ||
   (8192 <=? c) && (c <=? 8202) || (c =? 8232) || (c =? 8233) ||
   (c =? 8239) || (c =? 8287) || (c =? 12288) || (c =? 65279))%N.

Fixpoint trimStart (s : t) : t :=
  match s with
  | [] => []
  | c :: s' => if is_whitespace c then trimStart s' else s
  end.

Definition trimEnd (s : t) : t := rev (trimStart (rev s)).

(** [s.trim()] *)
Definition trim (s : t) : t := trimEnd (trimStart s).

Definition newline : code_unit := 10%N.

(** [s.split('\n')]: the pieces between line feeds; never the empty array. *)
Fixpoint split_lines (s : t) : list t :=
  match s with
  | [] => [[]]
  | c :: s' =>
      if N.eqb c newline then [] :: split_lines s'
      else match split_lines s' with
           | [] => [[c]]
           | l :: ls => (c :: l) :: ls
           end
  end.

(** [s.replace(/^P\s*/, '')] for a literal prefix [P]: when [s] starts with
    [P] the prefix and the whitespace following it are removed, otherwise
    the regular expression does not match and [s] is returned. *)
Definition strip_label (s p : t) : t :=
  if startsWith s p then trimStart (skipn (List.length p) s) else s.

End JsString.

Definition jsstring : Type := JsString.t.
Notation "'js' s" := (JsString.lit s) (at level 9, s at level 0, only parsing).

(* ===================================================================== *)
(** * Data model *)
(* ===================================================================== *)

(** [SpeechSynthesisVoice]: the three fields the component reads. *)
Record SpeechSynthesisVoice := mkVoice {
  voiceURI : jsstring;
  name : jsstring;
  lang : jsstring
}.

(** Value of a [ref<string | null>]; [populateVoiceList] can also store
    [undefined] through the optional chain [voices.value[0]?.voiceURI]. *)
Inductive uri_ref :=
| UriNull
| UriUndefined
| UriString (s : jsstring).

(** The values assigned to [errorMessage]. *)
Inductive message :=
| MsgEmpty              (* '' *)
| MsgUnsupported        (* browser has no speech synthesis / voice list failed to load *)
| MsgMissingInput       (* please enter text and choose a voice *)
| MsgSharePrompt        (* choose this tab and share its audio *)
| MsgCaptureDenied      (* capturing tab audio failed or sharing was cancelled *)
| MsgRecording          (* reading and recording, please wait *)
| MsgNoVoiceSpeak       (* no suitable voice, choose again (speak) *)
| MsgSpeakError         (* reading failed (speak) *)
| MsgDownloaded         (* WAV file downloaded *)
| MsgNoVoiceRead        (* no suitable voice, pick one from the list (readAloud) *)
| MsgUtteranceError (error : jsstring). (* error while generating speech: ${event.error} *)

(** The reactive state of the component. *)
Record state := mkState {
  text : jsstring;
  voices : list SpeechSynthesisVoice;
  speaker1VoiceURI : uri_ref;
  speaker2VoiceURI : uri_ref;
  errorMessage : message;
  currentLineIndex : option nat
}.

Definition set_voices (vs : list SpeechSynthesisVoice) (st : state) : state :=
  mkState (text st) vs (speaker1VoiceURI st) (speaker2VoiceURI st)
          (errorMessage st) (currentLineIndex st).

Definition set_speaker1VoiceURI (u : uri_ref) (st : state) : state :=
  mkState (text st) (voices st) u (speaker2VoiceURI st)
          (errorMessage st) (currentLineIndex st).

Definition set_speaker2VoiceURI (u : uri_ref) (st : state) : state :=
  mkState (text st) (voices st) (speaker1VoiceURI st) u
          (errorMessage st) (currentLineIndex st).

Definition set_errorMessage (m : message) (st : state) : state :=
  mkState (text st) (voices st) (speaker1VoiceURI st) (speaker2VoiceURI st)
          m (currentLineIndex st).

Definition set_currentLineIndex (i : option nat) (st : state) : state :=
  mkState (text st) (voices st) (speaker1VoiceURI st) (speaker2VoiceURI st)
          (errorMessage st) i.

(** The initial values of the refs. *)
Definition initial_state : state :=
  mkState [] [] UriNull UriNull MsgEmpty None.

(* ===================================================================== *)
(** * The host: speech synthesis, user agent, capture *)
(* ===================================================================== *)

(** Signals the synthesis engine fires on a submitted utterance. *)
Inductive utterance_event :=
| OnEnd
| OnError (error : jsstring).

(** A JavaScript number as exposed by a [Float32Array] element read: a
    binary64 value in the representation of [SpecFloat]. *)
Definition float := spec_float.

(** What the tap has buffered when [stop] runs: [samples] holds the blocks
    pushed by [onaudioprocess], [sampleRate] is [ctx.sampleRate]. *)
Record capture_session := mkCapture {
  samples : list (list float);
  sampleRate : Z
}.

(** Outcome of [navigator.mediaDevices.getDisplayMedia] followed by the
    construction of the audio graph inside the [try] block of
    [startWavRecorder]. *)
Inductive capture_outcome :=
| CaptureGranted (session : capture_session)
| CaptureRejected
| CapturePending.

Record host := mkHost {
  getVoices : list SpeechSynthesisVoice;      (* synth.getVoices() *)
  userAgent : jsstring;                       (* navigator.userAgent *)
  toLowerCase : jsstring -> jsstring;         (* String.prototype.toLowerCase *)
  speaking : bool;                            (* synth.speaking *)
  (* events fired on the [i]-th utterance of a dispatch, in firing order *)
  respond : nat -> jsstring -> SpeechSynthesisVoice -> list utterance_event;
  getDisplayMedia : capture_outcome
}.

(* ===================================================================== *)
(** * Voice catalog builder: [populateVoiceList] *)
(* ===================================================================== *)

(** [(lang.startsWith('zh') && lang !== 'zh-HK') || lang.startsWith('ja')] *)
Definition zh_or_ja (l : jsstring) : bool :=
  (JsString.startsWith l (js "zh") && negb (JsString.eqb l (js "zh-HK")))
  || JsString.startsWith l (js "ja").

(** The filter callback of the Chrome branch. *)
Definition chrome_keep (h : host) (voice : SpeechSynthesisVoice) : bool :=
  JsString.includes (toLowerCase h (name voice)) (js "google") &&
  (zh_or_ja (lang voice) || JsString.startsWith (lang voice) (js "en")).

(** The filter callback of the Edge branch. *)
Definition edge_keep (h : host) (voice : SpeechSynthesisVoice) : bool :=
  JsString.includes (toLowerCase h (name voice)) (js "microsoft") &&
  (zh_or_ja (lang voice) ||
   (JsString.eqb (lang voice) (js "en-US") ||
    JsString.eqb (lang voice) (js "en-GB") ||
    JsString.eqb (lang voice) (js "en-AU") ||
    JsString.eqb (lang voice) (js "en-CA") ||
    JsString.eqb (lang voice) (js "en-NZ"))).

(** The filter callback of the branch for other browsers. *)
Definition generic_keep (voice : SpeechSynthesisVoice) : bool :=
  zh_or_ja (lang voice) || JsString.startsWith (lang voice) (js "en").

(** The local function [langOrder] of the sort comparator. *)
Definition langOrder (l : jsstring) : Z :=
  if JsString.startsWith l (js "zh") then 0
  else if JsString.eqb l (js "en-US") then 1
  else if JsString.eqb l (js "en-AU") then 2
  else if JsString.eqb l (js "en-CA") then 3
  else if JsString.eqb l (js "en-NZ") then 4
  else if JsString.eqb l (js "en-GB") then 5
  else if JsString.startsWith l (js "en") then 6
  else if JsString.startsWith l (js "ja") then 7
  else 8.

(** The comparator [(a, b) => langOrder(a.lang) - langOrder(b.lang)]. *)
Definition compare_voices (a b : SpeechSynthesisVoice) : Z :=
  (langOrder (lang a) - langOrder (lang b))%Z.

(** [Array.prototype.sort(cmp)]: a stable sort (ECMAScript 2019), here by
    insertion, an element staying in front of the later elements it
    compares equal to. *)
Section ArraySort.
Context {A : Type} (cmp : A -> A -> Z).

Fixpoint sort_insert (x : A) (l : list A) : list A :=
  match l with
  | [] => [x]
  | y :: l' => if (cmp x y <=? 0)%Z then x :: l else y :: sort_insert x l'
  end.

Fixpoint Array_sort (l : list A) : list A :=
  match l with
  | [] => []
  | x :: l' => sort_insert x (Array_sort l')
  end.

End ArraySort.

(** [arr.find(p)?.voiceURI] *)
Definition find_uri (p : SpeechSynthesisVoice -> bool)
  (vs : list SpeechSynthesisVoice) : uri_ref :=
  match find p vs with
  | Some v => UriString (voiceURI v)
  | None => UriUndefined
  end.

(** [arr[0]?.voiceURI] *)
Definition first_uri (vs : list SpeechSynthesisVoice) : uri_ref :=
  match vs with
  | v :: _ => UriString (voiceURI v)
  | [] => UriUndefined
  end.

(** [a || b] on values of this type: [null], [undefined] and [''] are falsy. *)
Definition js_or (a b : uri_ref) : uri_ref :=
  match a with
  | UriString (_ :: _) => a
  | _ => b
  end.

Definition name_has (h : host) (needle : jsstring) (v : SpeechSynthesisVoice) : bool :=
  JsString.includes (toLowerCase h (name v)) needle.

Definition lang_starts (p : jsstring) (v : SpeechSynthesisVoice) : bool :=
  JsString.startsWith (lang v) p.

Definition lang_is (l : jsstring) (v : SpeechSynthesisVoice) : bool :=
  JsString.eqb (lang v) l.

(** Speaker 1 default, the same expression in the three branches. *)
Definition default_speaker1 (h : host) (vs : list SpeechSynthesisVoice) : uri_ref :=
  js_or (js_or (find_uri (name_has h (js "emma")) vs)
               (find_uri (lang_starts (js "en")) vs))
        (first_uri vs).

(** Speaker 2 default of the Chrome branch and of the branch for other
    browsers. *)
Definition default_speaker2_tw (vs : list SpeechSynthesisVoice) : uri_ref :=
  js_or (js_or (find_uri (lang_is (js "zh-TW")) vs)
               (find_uri (lang_starts (js "zh")) vs))
        (first_uri vs).

(** Speaker 2 default of the Edge branch. *)
Definition default_speaker2_yaoyao (h : host) (vs : list SpeechSynthesisVoice) : uri_ref :=
  js_or (js_or (find_uri (name_has h (js "yaoyao")) vs)
               (find_uri (lang_starts (js "zh")) vs))
        (first_uri vs).

Definition isEdge (h : host) : bool :=
  JsString.includes (toLowerCase h (userAgent h)) (js "edg").

Definition isChrome (h : host) : bool :=
  negb (isEdge h) && JsString.includes (toLowerCase h (userAgent h)) (js "chrome").

Definition populateVoiceList (h : host) (st : state) : state :=
  if (0 <? List.length (voices st))%nat then st
  else
    let availableVoices := getVoices h in
    if (0 <? List.length availableVoices)%nat then
      if isChrome h then
        let vs := filter (chrome_keep h) availableVoices in
        set_speaker2VoiceURI (default_speaker2_tw vs)
          (set_speaker1VoiceURI (default_speaker1 h vs) (set_voices vs st))
      else if isEdge h then
        let msVoices := filter (edge_keep h) availableVoices in
        let vs := Array_sort compare_voices msVoices in
        set_speaker2VoiceURI (default_speaker2_yaoyao h vs)
          (set_speaker1VoiceURI (default_speaker1 h vs) (set_voices vs st))
      else
        let vs := filter generic_keep availableVoices in
        set_speaker2VoiceURI (default_speaker2_tw vs)
          (set_speaker1VoiceURI (default_speaker1 h vs) (set_voices vs st))
    else set_errorMessage MsgUnsupported st.

(* ===================================================================== *)
(** * Waveform encoder: the [stop] closure of [startWavRecorder] *)
(* ===================================================================== *)

(** ** JavaScript numbers *)

Module Number.

(** binary64 *)
Definition prec : Z := 53.
Definition emax : Z := 1024.

(** The number with the integer value [z]. *)
Definition of_Z (z : Z) : float := binary_normalize prec emax z 0 false.

Definition mul (x y : float) : float := SFmul prec emax x y.

(** [x < y] *)
Definition lt (x y : float) : bool := SFltb x y.

(** [x <= y] *)
Definition le (x y : float) : bool := SFleb x y.

Definition is_nan (x : float) : bool :=
  match x with
  | S754_nan => true
  | _ => false
  end.

(** [Math.min(a, b)]: NaN when an argument is NaN; -0 is below +0. *)
Definition Math_min (a b : float) : float :=
  match SFcompare a b with
  | None => S754_nan
  | Some Lt => a
  | Some Gt => b
  | Some Eq =>
      match a, b with
      | S754_zero false, S754_zero true => b
      | _, _ => a
      end
  end.

(** [Math.max(a, b)]: NaN when an argument is NaN; +0 is above -0. *)
Definition Math_max (a b : float) : float :=
  match SFcompare a b with
  | None => S754_nan
  | Some Gt => a
  | Some Lt => b
  | Some Eq =>
      match a, b with
      | S754_zero true, S754_zero false => b
      | _, _ => a
      end
  end.

(** The integral part of a number, toward zero; 0 for NaN, the infinities
    and the zeros (the first steps of ToInt16 and ToUint32). *)
Definition truncate (x : float) : Z :=
  match x with
  | S754_finite s m e =>
      let magnitude := Z.shiftl (Zpos m) e in
      if s then (- magnitude)%Z else magnitude
  | _ => 0%Z
  end.

(** ToInt16 of an integer: modulo 2^16 into [-2^15, 2^15). *)
Definition wrap_int16 (z : Z) : Z :=
  let k := (z mod 65536)%Z in
  if (32768 <=? k)%Z then (k - 65536)%Z else k.

Definition ToInt16 (x : float) : Z := wrap_int16 (truncate x).

(** ToUint32 of an integer-valued number. *)
Definition ToUint32 (z : Z) : Z := (z mod 4294967296)%Z.

Definition ToUint16 (z : Z) : Z := (z mod 65536)%Z.

Definition ToUint8 (z : Z) : Z := (z mod 256)%Z.

End Number.

(** ** [DataView] over an [ArrayBuffer] *)

(** An [ArrayBuffer] is its sequence of bytes; a write outside the buffer
    throws a [RangeError], here [None]. *)
Definition ArrayBuffer := list byte.

Definition new_ArrayBuffer (n : nat) : ArrayBuffer := repeat Byte.x00 n.

Definition set_bytes (view : ArrayBuffer) (o : nat) (bs : list byte)
  : option ArrayBuffer :=
  if (o + List.length bs <=? List.length view)%nat
  then Some (List.upds view o bs)
  else None.

Notation "x <- c1 ;; c2" :=
  (match c1 with Some x => c2 | None => None end)
  (at level 61, c1 at next level, right associativity).

(** [view.setUint8(o, v)] *)
Definition setUint8 (view : ArrayBuffer) (o : nat) (v : Z) : option ArrayBuffer :=
  set_bytes view o (le_split 1 (Number.ToUint8 v)).

(** [view.setUint16(o, v, true)] *)
Definition setUint16 (view : ArrayBuffer) (o : nat) (v : Z) : option ArrayBuffer :=
  set_bytes view o (le_split 2 (Number.ToUint16 v)).

(** [view.setUint32(o, v, true)] *)
Definition setUint32 (view : ArrayBuffer) (o : nat) (v : Z) : option ArrayBuffer :=
  set_bytes view o (le_split 4 (Number.ToUint32 v)).

(** [view.setInt16(o, x, true)] *)
Definition setInt16 (view : ArrayBuffer) (o : nat) (x : float) : option ArrayBuffer :=
  set_bytes view o (le_split 2 (Number.ToInt16 x)).

(** The helper [w(o, s)]: one [setUint8] per code unit of [s]. *)
Fixpoint w_from (view : ArrayBuffer) (o : nat) (s : jsstring) (i : nat)
  : option ArrayBuffer :=
  match s with
  | [] => Some view
  | c :: s' =>
      view' <- setUint8 view (o + i) (Z.of_N c) ;;
      w_from view' o s' (S i)
  end.

Definition w (view : ArrayBuffer) (o : nat) (s : jsstring) : option ArrayBuffer :=
  w_from view o s 0.

(** ** Float32 to PCM16 *)

(** [Math.max(-1, Math.min(1, f32[i]))] *)
Definition clamp (x : float) : float :=
  Number.Math_max (Number.of_Z (-1)) (Number.Math_min (Number.of_Z 1) x).

(** [s < 0 ? s * 0x8000 : s * 0x7FFF] *)
Definition scale (s : float) : float :=
  if Number.lt s (Number.of_Z 0)
  then Number.mul s (Number.of_Z 32768)
  else Number.mul s (Number.of_Z 32767).

(** The inner loop [for (let i = 0; i < f32.length; i++, offset += 2)]. *)
Fixpoint write_block (f32 : list float) (pcm16 : ArrayBuffer) (offset : nat)
  : option (ArrayBuffer * nat) :=
  match f32 with
  | [] => Some (pcm16, offset)
  | x :: rest =>
      let s := Number.Math_max (Number.of_Z (-1))
                 (Number.Math_min (Number.of_Z 1) x) in
      pcm16' <- setInt16 pcm16 offset
                  (if Number.lt s (Number.of_Z 0)
                   then Number.mul s (Number.of_Z 32768)
                   else Number.mul s (Number.of_Z 32767)) ;;
      write_block rest pcm16' (offset + 2)
  end.

(** The outer loop [for (const f32 of samples)]. *)
Fixpoint write_blocks (blocks : list (list float)) (pcm16 : ArrayBuffer)
  (offset : nat) : option (ArrayBuffer * nat) :=
  match blocks with
  | [] => Some (pcm16, offset)
  | f32 :: rest =>
      r <- write_block f32 pcm16 offset ;;
      write_blocks rest (fst r) (snd r)
  end.

(** [stop()], after the graph is disconnected: the bytes of the returned
    [Blob]. *)
Definition stop (session : capture_session) : option ArrayBuffer :=
  let length := fold_left (fun sum a => (sum + List.length a)%nat) (samples session) 0%nat in
  let pcm16 := new_ArrayBuffer (length * 2) in
  r <- write_blocks (samples session) pcm16 0 ;;
  let pcm16 := fst r in
  let byteLength := List.length pcm16 in
  let sampleRate := sampleRate session in
  let view := new_ArrayBuffer (44 + byteLength) in
  view <- w view 0 (js "RIFF") ;;
  view <- setUint32 view 4 (36 + Z.of_nat byteLength) ;;
  view <- w view 8 (js "WAVE") ;;
  view <- w view 12 (js "fmt ") ;;
  view <- setUint32 view 16 16 ;;
  view <- setUint16 view 20 1 ;;
  view <- setUint16 view 22 1 ;;
  view <- setUint32 view 24 sampleRate ;;
  view <- setUint32 view 28 (sampleRate * 2) ;;
  view <- setUint16 view 32 2 ;;
  view <- setUint16 view 34 16 ;;
  view <- w view 36 (js "data") ;;
  view <- setUint32 view 40 (Z.of_nat byteLength) ;;
  set_bytes view 44 pcm16.

(** The PCM16 bytes of one sample. *)
Definition pcm16_of_sample (x : float) : list byte :=
  le_split 2 (Number.ToInt16 (scale (clamp x))).

(** Reading header fields back, little-endian. *)
Definition getUint (buf : ArrayBuffer) (o n : nat) : Z :=
  le_combine (firstn n (skipn o buf)).

(* ===================================================================== *)
(** * Line dispatcher: [readAloud] and [speak] *)
(* ===================================================================== *)

(** Calls into the host and writes to [currentLineIndex], in program order. *)
Inductive effect :=
| SynthCancel                                              (* synth.cancel() *)
| SetCurrentLine (i : option nat)                          (* currentLineIndex.value = i *)
| SynthSpeak (utterText : jsstring) (voice : SpeechSynthesisVoice)  (* synth.speak(utterance) *)
| RequestDisplayMedia                                      (* getDisplayMedia({video, audio}) *)
| TapConnected      (* video tracks stopped; source -> processor -> destination *)
| TapDisconnected   (* processor and source disconnected, audio tracks stopped *)
| Download (fileName : jsstring) (content : ArrayBuffer).  (* a.click() *)

(** How a call of an [async] function ends. *)
Inductive outcome :=
| Completed   (* the returned promise is fulfilled *)
| Rejected    (* the returned promise is rejected *)
| Suspended.  (* an awaited promise is never settled *)

Record result := mkResult {
  final : state;
  effects : list effect;
  ending : outcome
}.

Definition emit (es : list effect) (r : result) : result :=
  mkResult (final r) (es ++ effects r) (ending r).

(** [if (synth.speaking) synth.cancel();] *)
Definition cancel_if_speaking (h : host) : list effect :=
  if speaking h then [SynthCancel] else [].

(** [text.value.split('\n').filter(l => l.trim() !== '')] *)
Definition non_blank (l : jsstring) : bool :=
  negb (JsString.eqb (JsString.trim l) []).

Definition plan (rawText : jsstring) : list jsstring :=
  filter non_blank (JsString.split_lines rawText).

(** [voices.value.find(v => v.voiceURI === uri)] *)
Definition find_voice (st : state) (uri : uri_ref) : option SpeechSynthesisVoice :=
  match uri with
  | UriString s => find (fun v => JsString.eqb (voiceURI v) s) (voices st)
  | _ => None
  end.

(** The three-way branch on the speaker label: the utterance text and the
    voice looked up for it. *)
Definition resolve_line (st : state) (line : jsstring)
  : jsstring * option SpeechSynthesisVoice :=
  if JsString.startsWith line (js "Speaker 1:") then
    (JsString.strip_label line (js "Speaker 1:"), find_voice st (speaker1VoiceURI st))
  else if JsString.startsWith line (js "Speaker 2:") then
    (JsString.strip_label line (js "Speaker 2:"), find_voice st (speaker2VoiceURI st))
  else
    (line, find_voice st (speaker1VoiceURI st)).

(** ** [readAloud] *)

(** The wait of [readAloud], on the events the engine fires for the
    utterance: [onerror] writes the message, only [onend] calls [resolve].
    The boolean tells whether the promise was resolved.  The engine closes
    an utterance with a single [end] or [error] event (Web Speech API): of a
    longer list, the events after the first [end] are not read. *)
Fixpoint await_onend (evs : list utterance_event) (st : state) : state * bool :=
  match evs with
  | [] => (st, false)
  | OnEnd :: _ => (st, true)
  | OnError e :: evs' => await_onend evs' (set_errorMessage (MsgUtteranceError e) st)
  end.

(** The loop [for (let i = ...; i < lines.length; i++)] from index [i] on,
    [lines] being the lines still to read, and the statement after it. *)
Fixpoint readAloud_from (h : host) (lines : list jsstring) (i : nat) (st : state)
  : result :=
  match lines with
  | [] => mkResult (set_currentLineIndex None st) [SetCurrentLine None] Completed
  | line :: rest =>
      let (utterText, voice) := resolve_line st line in
      match voice with
      | None =>
          mkResult (set_currentLineIndex None (set_errorMessage MsgNoVoiceRead st))
                   [SetCurrentLine None] Completed
      | Some voice =>
          let st := set_currentLineIndex (Some i) st in
          let (st, resolved) := await_onend (respond h i utterText voice) st in
          emit [SetCurrentLine (Some i); SynthSpeak utterText voice]
               (if resolved then readAloud_from h rest (S i) st
                else mkResult st [] Suspended)
      end
  end.

Definition readAloud (h : host) (st : state) : result :=
  emit (cancel_if_speaking h)
    (if negb (JsString.eqb (text st) []) && (0 <? List.length (voices st))%nat then
       let st := set_errorMessage MsgEmpty st in
       readAloud_from h (plan (text st)) 0 st
     else mkResult (set_errorMessage MsgMissingInput st) [] Completed).

(** ** [startWavRecorder] and [speak] *)

(** [startWavRecorder()]: the capture request and, once it is granted, the
    construction of the tap.  The promise is fulfilled with the recorder,
    here the session its [stop] will encode, rejected when the request or
    the construction fails, and stays pending while the user does not
    answer. *)
Definition startWavRecorder (h : host) : list effect * capture_outcome :=
  match getDisplayMedia h with
  | CaptureGranted session => ([RequestDisplayMedia; TapConnected], CaptureGranted session)
  | CaptureRejected => ([RequestDisplayMedia], CaptureRejected)
  | CapturePending => ([RequestDisplayMedia], CapturePending)
  end.

(** The wait of [speak]: the first signal settles the promise, [onend]
    resolving it and [onerror] writing the message and rejecting it.  The
    engine closes an utterance with a single [end] or [error] event (Web
    Speech API): of a longer list, the events after the first are not
    read. *)
Definition await_settled (evs : list utterance_event) (st : state)
  : state * outcome :=
  match evs with
  | [] => (st, Suspended)
  | OnEnd :: _ => (st, Completed)
  | OnError e :: _ => (set_errorMessage MsgSpeakError st, Rejected)
  end.

(** Step 3 of [speak]: stop the recorder and download the file. *)
Definition stop_and_download (session : capture_session) (st : state) : result :=
  match stop session with
  | Some wavBlob =>
      mkResult (set_errorMessage MsgDownloaded st)
               [TapDisconnected; Download (js "tts-audio.wav") wavBlob] Completed
  | None => mkResult st [TapDisconnected] Rejected
  end.

(** Step 2 of [speak] from index [i] on, followed by step 3. *)
Fixpoint speak_from (h : host) (session : capture_session)
  (lines : list jsstring) (i : nat) (st : state) : result :=
  match lines with
  | [] => stop_and_download session st
  | raw :: rest =>
      let (utterText, voice) := resolve_line st raw in
      match voice with
      | None => mkResult (set_errorMessage MsgNoVoiceSpeak st) [] Completed
      | Some voice =>
          let (st, settled) := await_settled (respond h i utterText voice) st in
          emit [SynthSpeak utterText voice]
               (match settled with
                | Completed => speak_from h session rest (S i) st
                | o => mkResult st [] o
                end)
      end
  end.

Definition speak (h : host) (st : state) : result :=
  emit (cancel_if_speaking h)
    (if JsString.eqb (text st) [] || (List.length (voices st) =? 0)%nat then
       mkResult (set_errorMessage MsgMissingInput st) [] Completed
     else
       let st := set_errorMessage MsgSharePrompt st in
       let (requested, recorder) := startWavRecorder h in
       emit requested
         (match recorder with
          | CapturePending => mkResult st [] Suspended
          | CaptureRejected => mkResult (set_errorMessage MsgCaptureDenied st) [] Completed
          | CaptureGranted session =>
              let st := set_errorMessage MsgRecording st in
              speak_from h session (plan (text st)) 0 st
          end)).

(* ===================================================================== *)
(** * Lifecycle hook and watchers *)
(* ===================================================================== *)

(** [filteredVoicesByLang(lang)] *)
Definition filteredVoicesByLang (st : state) (l : jsstring) : list SpeechSynthesisVoice :=
  filter (fun v => JsString.startsWith (lang v) l) (voices st).

(** [arr.find(v => v.voiceURI === uri)] on an array of voices. *)
Definition find_by_uri (vs : list SpeechSynthesisVoice) (uri : uri_ref)
  : option SpeechSynthesisVoice :=
  match uri with
  | UriString s => find (fun v => JsString.eqb (voiceURI v) s) vs
  | _ => None
  end.

(** The callback of [watch(voices, ...)], called with the new catalog. *)
Definition watch_voices (newVoices : list SpeechSynthesisVoice) (st : state) : state :=
  match newVoices with
  | [] => st
  | first :: others =>
      let st :=
        match find_by_uri newVoices (speaker1VoiceURI st) with
        | Some _ => st
        | None => set_speaker1VoiceURI (UriString (voiceURI first)) st
        end in
      match find_by_uri newVoices (speaker2VoiceURI st) with
      | Some _ => st
      | None =>
          set_speaker2VoiceURI
            (match others with
             | second :: _ => UriString (voiceURI second)
             | [] => UriString (voiceURI first)
             end) st
      end
  end.

(** The callback of [watch(speaker1Lang, ...)]. *)
Definition watch_speaker1Lang (h : host) (newLang : jsstring) (st : state) : state :=
  let filtered := filteredVoicesByLang st newLang in
  match filtered with
  | [] => st
  | first :: _ =>
      if JsString.eqb newLang (js "en") then
        match find (fun v => JsString.includes (toLowerCase h (name v)) (js "emma"))
                   filtered with
        | Some emmaVoice => set_speaker1VoiceURI (UriString (voiceURI emmaVoice)) st
        | None => set_speaker1VoiceURI (UriString (voiceURI first)) st
        end
      else set_speaker1VoiceURI (UriString (voiceURI first)) st
  end.

(** The callback of [watch(speaker2Lang, ...)]. *)
Definition watch_speaker2Lang (h : host) (newLang : jsstring) (st : state) : state :=
  let filtered := filteredVoicesByLang st newLang in
  match filtered with
  | [] => st
  | first :: _ =>
      if JsString.eqb newLang (js "en") then
        match find (fun v => JsString.includes (toLowerCase h (name v)) (js "emma"))
                   filtered with
        | Some emmaVoice => set_speaker2VoiceURI (UriString (voiceURI emmaVoice)) st
        | None => set_speaker2VoiceURI (UriString (voiceURI first)) st
        end
      else set_speaker2VoiceURI (UriString (voiceURI first)) st
  end.

(** The [onMounted] hook: the state after it and whether
    [synth.onvoiceschanged] has been set to [populateVoiceList]. *)
Definition onMounted (h : host) (st : state) : state * bool :=
  if (List.length (getVoices h) =? 0)%nat then (st, true)
  else (populateVoiceList h st, false).

(** A [voiceschanged] event, the host being [h] when it fires. *)
Definition voiceschanged (h : host) (mounted : state * bool) : state :=
  if snd mounted then populateVoiceList h (fst mounted) else fst mounted.

(* ===================================================================== *)
(** * Specification-level definitions *)
(* ===================================================================== *)

(** Order by an integer key. *)
Definition key_le {A : Type} (key : A -> Z) (a b : A) : Prop := (key a <= key b)%Z.

(** The key the comparator of the source sorts a voice by. *)
Definition rank (v : SpeechSynthesisVoice) : Z := langOrder (lang v).

(** The English variants the specification ranks by name, with their
    ranks. *)
Definition named_english : list (jsstring * Z) :=
  [(js "en-US", 1); (js "en-AU", 2); (js "en-CA", 3); (js "en-NZ", 4); (js "en-GB", 5)]%Z.

(** The rank of a language, in the words of the specification: zh-prefixed
    0, en-US 1, en-AU 2, en-CA 3, en-NZ 4, en-GB 5, any other en-prefixed 6,
    ja-prefixed 7, everything else 8. *)
Definition language_rank (l : jsstring) : Z :=
  if JsString.startsWith l (js "zh") then 0
  else match find (fun row => JsString.eqb l (fst row)) named_english with
       | Some row => snd row
       | None =>
           if JsString.startsWith l (js "en") then 6
           else if JsString.startsWith l (js "ja") then 7
           else 8
       end.

(** The rank of a voice is the rank of its language. *)
Definition voice_rank (v : SpeechSynthesisVoice) : Z := language_rank (lang v).

Definition has_rank (r : Z) (v : SpeechSynthesisVoice) : bool := (voice_rank v =? r)%Z.

(** A list stably sorted by rank, in the words of the specification: the
    voices of rank 0 in their original order, then those of rank 1, and so
    on up to rank 8. *)
Definition stable_sort_by_rank (vs : list SpeechSynthesisVoice)
  : list SpeechSynthesisVoice :=
  flat_map (fun r => filter (has_rank r) vs) [0; 1; 2; 3; 4; 5; 6; 7; 8]%Z.

(** The Edge allow-list, in the words of the specification. *)
Definition edge_allowed (h : host) (v : SpeechSynthesisVoice) : Prop :=
  JsString.includes (toLowerCase h (name v)) (js "microsoft") = true /\
  ((JsString.startsWith (lang v) (js "zh") = true /\ lang v <> js "zh-HK") \/
   JsString.startsWith (lang v) (js "ja") = true \/
   In (lang v) [js "en-US"; js "en-GB"; js "en-AU"; js "en-CA"; js "en-NZ"]).

(** The filter callback of the branch [populateVoiceList] takes on [h]. *)
Definition vendor_keep (h : host) : SpeechSynthesisVoice -> bool :=
  if isChrome h then chrome_keep h
  else if isEdge h then edge_keep h
  else generic_keep.

(** The utterances submitted to the synthesis engine, in order. *)
Fixpoint utterances (es : list effect) : list (jsstring * SpeechSynthesisVoice) :=
  match es with
  | [] => []
  | SynthSpeak utterText voice :: es' => (utterText, voice) :: utterances es'
  | _ :: es' => utterances es'
  end.

(** What the specification expects of [readAloud] for the line of index
    [i]: the indicator is set to [i], then the line's utterance is
    submitted with the voice of its speaker. *)
Definition line_effects (st : state) (i : nat) (line : jsstring) : list effect :=
  match resolve_line st line with
  | (utterText, Some voice) => [SetCurrentLine (Some i); SynthSpeak utterText voice]
  | (_, None) => []
  end.

Fixpoint dispatch_effects (st : state) (i : nat) (lines : list jsstring) : list effect :=
  match lines with
  | [] => []
  | line :: rest => line_effects st i line ++ dispatch_effects st (S i) rest
  end.

(** The line's speaker voice is in the catalog. *)
Definition resolvable (st : state) (line : jsstring) : Prop :=
  exists voice, snd (resolve_line st line) = Some voice.


(** Two states with the same catalog and speaker selections. *)
Definition same_selection (st st' : state) : Prop :=
  voices st' = voices st /\
  speaker1VoiceURI st' = speaker1VoiceURI st /\
  speaker2VoiceURI st' = speaker2VoiceURI st.

(** The bytes [w] writes for a string: one per code unit, reduced modulo
    256. *)
Definition char_bytes (s : jsstring) : list byte :=
  flat_map (fun c => le_split 1 (Number.ToUint8 (Z.of_N c))) s.

(** The 44-byte header of a single-channel 16-bit PCM RIFF/WAVE file with
    [dataBytes] bytes of samples at [rate] samples per second, every number
    little-endian: "RIFF", chunk size, "WAVE", "fmt ", format chunk size 16,
    format code 1 (PCM), channel count 1, sample rate, byte rate, block
    align 2, bits per sample 16, "data", data chunk size. *)
Definition wav_header (dataBytes rate : Z) : list byte :=
  char_bytes (js "RIFF") ++ le_split 4 (36 + dataBytes) ++
  char_bytes (js "WAVE") ++
  char_bytes (js "fmt ") ++ le_split 4 16 ++
  le_split 2 1 ++ le_split 2 1 ++
  le_split 4 rate ++ le_split 4 (rate * 2) ++
  le_split 2 2 ++ le_split 2 16 ++
  char_bytes (js "data") ++ le_split 4 dataBytes.

(** Clamping to [-1, 1], in the words of the specification. *)
Definition clamp_spec (x : float) : float :=
  if Number.lt (Number.of_Z 1) x then Number.of_Z 1
  else if Number.lt x (Number.of_Z (-1)) then Number.of_Z (-1)
  else x.

(** A URI taken from a voice of the list. *)
Definition uri_of (vs : list SpeechSynthesisVoice) (u : uri_ref) : Prop :=
  exists v, In v vs /\ u = UriString (voiceURI v).

(** The first candidate that exists. *)
Fixpoint first_some {A : Type} (candidates : list (option A)) : option A :=
  match candidates with
  | [] => None
  | Some a :: _ => Some a
  | None :: rest => first_some rest
  end.

(** The utterances of a run, as (text, voice) pairs in the shape
    [resolve_line] returns them. *)
Definition submitted (r : result) : list (jsstring * option SpeechSynthesisVoice) :=
  map (fun p => (fst p, Some (snd p))) (utterances (effects r)).

(* ===================================================================== *)
(** * Example hosts and states *)
(* ===================================================================== *)

(** Lower-casing of the ASCII letters, enough for the example hosts. *)
Definition ascii_toLowerCase (s : jsstring) : jsstring :=
  map (fun c => if ((65 <=? c) && (c <=? 90))%N then (c + 32)%N else c) s.

Definition voice_xiaoxiao : SpeechSynthesisVoice :=
  mkVoice (js "ms-xiaoxiao") (js "Microsoft Xiaoxiao Online") (js "zh-CN").
Definition voice_emma : SpeechSynthesisVoice :=
  mkVoice (js "ms-emma") (js "Microsoft Emma Online") (js "en-US").
Definition voice_sonia : SpeechSynthesisVoice :=
  mkVoice (js "ms-sonia") (js "Microsoft Sonia Online") (js "en-GB").
Definition voice_nanami : SpeechSynthesisVoice :=
  mkVoice (js "ms-nanami") (js "Microsoft Nanami Online") (js "ja-JP").
Definition voice_denise : SpeechSynthesisVoice :=
  mkVoice (js "ms-denise") (js "Microsoft Denise Online") (js "fr-FR").

Definition always_ends (i : nat) (utterText : jsstring) (v : SpeechSynthesisVoice)
  : list utterance_event := [OnEnd].

(** An Edge host with five voices, in an order the sort has to change. *)
Definition edge_host : host :=
  mkHost [voice_nanami; voice_sonia; voice_denise; voice_emma; voice_xiaoxiao]
         (js "Mozilla/5.0 Chrome/120.0 Safari/537.36 Edg/120.0")
         ascii_toLowerCase false always_ends CaptureRejected.

(** A host that is neither Chrome nor Edge and offers one French voice. *)
Definition french_host : host :=
  mkHost [voice_denise] (js "Mozilla/5.0 Gecko/20100101 Firefox/121.0")
         ascii_toLowerCase false always_ends CaptureRejected.

(** A state with a two-voice catalog, both speakers resolved. *)
Definition reader_state (rawText : jsstring) : state :=
  mkState rawText [voice_emma; voice_xiaoxiao]
          (UriString (js "ms-emma")) (UriString (js "ms-xiaoxiao")) MsgEmpty None.

Definition two_lines : jsstring :=
  js "Speaker 1:Hello" ++ [JsString.newline] ++ js "Speaker 2: Ni hao" ++
  [JsString.newline; JsString.newline].

(** A host whose engine speaks every utterance to its end, on which the
    user refuses the capture. *)
Definition quiet_host : host :=
  mkHost [voice_emma; voice_xiaoxiao] (js "Mozilla/5.0 Chrome/120.0 Safari/537.36")
         ascii_toLowerCase false always_ends CaptureRejected.



(** +0.5 and -0.5 *)
Definition half : float := S754_finite false 4503599627370496 (-53).
Definition minus_half : float := S754_finite true 4503599627370496 (-53).

Definition short_capture : capture_session :=
  mkCapture [[Number.of_Z 1; half]; [minus_half]] 48000.

(** A host whose engine fails on the first utterance of a dispatch, firing
    [error] alone, and speaks the others; the capture is granted. *)
Definition fails_first (i : nat) (utterText : jsstring) (v : SpeechSynthesisVoice)
  : list utterance_event :=
  match i with
  | O => [OnError (js "synthesis-failed")]
  | S _ => [OnEnd]
  end.

Definition failing_host : host :=
  mkHost [voice_emma; voice_xiaoxiao] (js "Mozilla/5.0 Chrome/120.0 Safari/537.36")
         ascii_toLowerCase false fails_first (CaptureGranted short_capture).

(** The same host with a working engine, still speaking when the dispatch
    starts. *)
Definition recording_host : host :=
  mkHost [voice_emma; voice_xiaoxiao] (js "Mozilla/5.0 Chrome/120.0 Safari/537.36")
         ascii_toLowerCase true always_ends (CaptureGranted short_capture).

(** A host whose voice list is still loading. *)
Definition loading_host : host :=
  mkHost [] (js "Mozilla/5.0 Chrome/120.0 Safari/537.36 Edg/120.0")
         ascii_toLowerCase false always_ends CaptureRejected.

(* ===================================================================== *)
(** * Lemmas on JavaScript strings *)
(* ===================================================================== *)

Lemma JsString_eqb_eq (a b : jsstring) : JsString.eqb a b = true <-> a = b.
Proof.
  revert b; induction a as [|x a IH]; intros [|y b]; simpl; split;
    try congruence; auto.
  - intros H. apply andb_true_iff in H as [Hx Hab].
    apply N.eqb_eq in Hx. apply IH in Hab. congruence.
  - intros H. injection H as -> ->.
    apply andb_true_iff. split; [apply N.eqb_refl | now apply IH].
Qed.

Lemma JsString_eqb_neq (a b : jsstring) : JsString.eqb a b = false <-> a <> b.
Proof.
  rewrite <- JsString_eqb_eq. destruct (JsString.eqb a b); split; congruence.
Qed.

(* ===================================================================== *)
(** * The stable sort *)
(* ===================================================================== *)

Section SortFacts.
Context {A : Type} (key : A -> Z).

Let cmp (a b : A) : Z := (key a - key b)%Z.

Lemma sort_insert_perm (x : A) (l : list A) :
  Permutation (x :: l) (sort_insert cmp x l).
Proof.
  induction l as [|y l IH]; simpl; auto.
  destruct (cmp x y <=? 0)%Z; auto.
  rewrite perm_swap. now constructor.
Qed.

Lemma Array_sort_perm (l : list A) : Permutation l (Array_sort cmp l).
Proof.
  induction l as [|x l IH]; simpl; auto.
  rewrite <- sort_insert_perm. now constructor.
Qed.

Lemma sort_insert_sorted (x : A) (l : list A) :
  StronglySorted (key_le key) l -> StronglySorted (key_le key) (sort_insert cmp x l).
Proof.
  induction 1 as [|y l Hl IH Hy]; simpl.
  - repeat constructor.
  - destruct (cmp x y <=? 0)%Z eqn:E; unfold cmp in E.
    + apply Z.leb_le in E. constructor; [now constructor|].
      constructor; [unfold key_le; lia|].
      eapply Forall_impl; [|exact Hy]. unfold key_le. intros; lia.
    + apply Z.leb_gt in E. constructor; auto.
      eapply Permutation_Forall; [apply sort_insert_perm|].
      constructor; [unfold key_le; lia | exact Hy].
Qed.

Lemma Array_sort_sorted (l : list A) : StronglySorted (key_le key) (Array_sort cmp l).
Proof.
  induction l; simpl; [constructor | now apply sort_insert_sorted].
Qed.

(** Insertion never moves an element past one of the same key. *)
Lemma sort_insert_bucket (r : Z) (x : A) (l : list A) :
  filter (fun a => (key a =? r)%Z) (sort_insert cmp x l) =
  filter (fun a => (key a =? r)%Z) (x :: l).
Proof.
  induction l as [|y l IH]; [reflexivity|].
  cbn [sort_insert]. destruct (cmp x y <=? 0)%Z eqn:E; [reflexivity|].
  apply Z.leb_gt in E. unfold cmp in E.
  cbn [filter] in *. rewrite IH.
  destruct (key x =? r)%Z eqn:Ex, (key y =? r)%Z eqn:Ey; try reflexivity.
  apply Z.eqb_eq in Ex, Ey. lia.
Qed.

Lemma Array_sort_bucket (r : Z) (l : list A) :
  filter (fun a => (key a =? r)%Z) (Array_sort cmp l) =
  filter (fun a => (key a =? r)%Z) l.
Proof.
  induction l as [|x l IH]; [reflexivity|].
  cbn [Array_sort]. rewrite sort_insert_bucket. cbn [filter]. now rewrite IH.
Qed.

End SortFacts.

Section BucketFacts.
Context {A : Type} (key : A -> Z).

Lemma filter_all (p : A -> bool) (l : list A) :
  Forall (fun x => p x = true) l -> filter p l = l.
Proof.
  induction 1 as [|x l Hx _ IH]; simpl; [reflexivity|].
  now rewrite Hx, IH.
Qed.

Lemma filter_none (p : A -> bool) (l : list A) :
  Forall (fun x => p x = false) l -> filter p l = [].
Proof.
  induction 1 as [|x l Hx _ IH]; simpl; [reflexivity|].
  now rewrite Hx, IH.
Qed.

Lemma filter_filter_imp (p q : A -> bool) (l : list A) :
  (forall x, p x = true -> q x = true) ->
  filter p (filter q l) = filter p l.
Proof.
  intros Hpq. induction l as [|x l IH]; simpl; [reflexivity|].
  destruct (q x) eqn:Eq; simpl; rewrite IH; [reflexivity|].
  destruct (p x) eqn:Ep; [|reflexivity].
  apply Hpq in Ep. congruence.
Qed.

Lemma StronglySorted_filter (R : A -> A -> Prop) (p : A -> bool) (l : list A) :
  StronglySorted R l -> StronglySorted R (filter p l).
Proof.
  induction 1 as [|x l Hl IH Hx]; simpl; [constructor|].
  destruct (p x); [|exact IH].
  constructor; [exact IH|].
  rewrite Forall_forall in *. intros y Hy.
  apply filter_In in Hy. now apply Hx.
Qed.

(** A sorted list splits into its lowest bucket and the rest. *)
Lemma sorted_split_lowest (a : Z) (l : list A) :
  StronglySorted (key_le key) l ->
  Forall (fun x => (a <= key x)%Z) l ->
  l = filter (fun x => (key x =? a)%Z) l ++ filter (fun x => (a <? key x)%Z) l.
Proof.
  induction 1 as [|y l Hl IH Hy]; intros Hlow; [reflexivity|].
  inversion Hlow as [|? ? Hya Hlow']; subst.
  cbn [filter]. destruct (key y =? a)%Z eqn:E.
  - apply Z.eqb_eq in E.
    replace (a <? key y)%Z with false by (symmetry; apply Z.ltb_ge; lia).
    cbn [app]. f_equal. now apply IH.
  - apply Z.eqb_neq in E.
    replace (a <? key y)%Z with true by (symmetry; apply Z.ltb_lt; lia).
    rewrite filter_none, filter_all; [reflexivity| |].
    + eapply Forall_impl; [|exact Hy]. unfold key_le.
      intros x Hx. apply Z.ltb_lt. lia.
    + eapply Forall_impl; [|exact Hy]. unfold key_le.
      intros x Hx. apply Z.eqb_neq. lia.
Qed.

(** A list sorted by a key with values in [a, a + n) is the concatenation
    of its buckets in ascending order. *)
Lemma sorted_is_buckets (n : nat) : forall (a : nat) (l : list A),
  StronglySorted (key_le key) l ->
  Forall (fun x => (Z.of_nat a <= key x < Z.of_nat a + Z.of_nat n)%Z) l ->
  l = flat_map (fun r => filter (fun x => (key x =? r)%Z) l)
               (map Z.of_nat (seq a n)).
Proof.
  induction n as [|n IH]; intros a l Hs Hr.
  - destruct l as [|x l]; [reflexivity|].
    inversion Hr; subst; lia.
  - cbn [seq map flat_map].
    rewrite (sorted_split_lowest (Z.of_nat a) l) at 1; cycle 1.
    + exact Hs.
    + eapply Forall_impl; [|exact Hr]. cbv beta. intros; lia.
    + f_equal.
      set (l2 := filter (fun x => (Z.of_nat a <? key x)%Z) l).
      rewrite (IH (S a) l2) at 1.
      * rewrite !flat_map_concat_map. f_equal.
        apply map_ext_in. intros r Hin. unfold l2.
        apply in_map_iff in Hin as [k [<- Hk]]. apply in_seq in Hk.
        apply filter_filter_imp. intros x Hx.
        apply Z.eqb_eq in Hx. apply Z.ltb_lt. lia.
      * now apply StronglySorted_filter.
      * apply Forall_forall. intros x Hx. unfold l2 in Hx.
        apply filter_In in Hx as [Hin Hx]. apply Z.ltb_lt in Hx.
        rewrite Forall_forall in Hr. specialize (Hr x Hin). lia.
Qed.

End BucketFacts.

(* ===================================================================== *)
(** * Voice catalog builder: properties *)
(* ===================================================================== *)

Lemma langOrder_range (l : jsstring) : (0 <= langOrder l < 0 + 9)%Z.
Proof.
  unfold langOrder.
  repeat match goal with
         | |- context [if ?b then _ else _] => destruct b
         end; lia.
Qed.

Lemma Array_sort_nil_iff {A : Type} (cmp : A -> A -> Z) (l : list A) :
  Array_sort cmp l = [] <-> l = [].
Proof.
  split; intros H; [|now subst].
  destruct l as [|x l]; [reflexivity|]. simpl in H.
  destruct (Array_sort cmp l); simpl in H; [discriminate|].
  destruct (cmp x a <=? 0)%Z; discriminate.
Qed.

Lemma nonempty_length {A : Type} (l : list A) :
  (0 <? List.length l)%nat = true <-> l <> [].
Proof.
  destruct l; cbn; split; intros H; try discriminate; try reflexivity.
  now contradiction H.
Qed.

Lemma edge_keep_allowed (h : host) (v : SpeechSynthesisVoice) :
  edge_keep h v = true <-> edge_allowed h v.
Proof.
  unfold edge_keep, edge_allowed, zh_or_ja.
  rewrite andb_true_iff, !orb_true_iff, andb_true_iff, negb_true_iff.
  rewrite JsString_eqb_neq, !JsString_eqb_eq.
  cbn [In]. intuition congruence.
Qed.

(** The catalog the Edge branch stores, given the host list. *)
Lemma populate_edge_voices (h : host) (st : state) :
  voices st = [] -> isEdge h = true ->
  voices (populateVoiceList h st) =
  Array_sort compare_voices (filter (edge_keep h) (getVoices h)).
Proof.
  intros Hv He. unfold populateVoiceList, isChrome. rewrite Hv, He. cbn.
  destruct (getVoices h) as [|v vs] eqn:Eg; cbn; [exact Hv | reflexivity].
Qed.

(** The key of the comparator is the rank of the specification. *)
Lemma langOrder_language_rank (l : jsstring) : langOrder l = language_rank l.
Proof.
  unfold langOrder, language_rank, named_english. cbn [find fst snd].
  repeat match goal with
         | |- context [if ?b then _ else _] => destruct b
         end; reflexivity.
Qed.

Lemma rank_voice_rank (v : SpeechSynthesisVoice) : rank v = voice_rank v.
Proof. apply langOrder_language_rank. Qed.

Lemma StronglySorted_key_ext {A : Type} (key key' : A -> Z) (l : list A) :
  (forall a, key a = key' a) ->
  StronglySorted (key_le key) l -> StronglySorted (key_le key') l.
Proof.
  intros Hk. induction 1 as [|a l Hl IH Ha]; constructor; [exact IH|].
  eapply Forall_impl; [|exact Ha]. unfold key_le. intros b. now rewrite !Hk.
Qed.

Lemma filter_key_ext {A : Type} (key key' : A -> Z) (r : Z) (l : list A) :
  (forall a, key a = key' a) ->
  filter (fun a => (key a =? r)%Z) l = filter (fun a => (key' a =? r)%Z) l.
Proof. intros Hk. apply filter_ext. intros a. now rewrite Hk. Qed.

Lemma voice_rank_range (v : SpeechSynthesisVoice) : (0 <= voice_rank v < 0 + 9)%Z.
Proof. rewrite <- rank_voice_rank. apply langOrder_range. Qed.

(** C7: on an Edge host, the catalog built by populateVoiceList is the
    sublist of the host voices on the Microsoft allow-list (name contains
    "microsoft" after lower-casing; language zh-prefixed but not zh-HK,
    ja-prefixed, or one of en-US, en-GB, en-AU, en-CA, en-NZ), stably sorted
    by the rank of the specification, [voice_rank]: zh-prefixed 0, en-US 1,
    en-AU 2, en-CA 3, en-NZ 4, en-GB 5, other en-prefixed 6, ja-prefixed 7,
    else 8.  The catalog is the concatenation of the rank buckets 0 to 8 of
    the kept voices, a permutation of them sorted by that rank, and within
    every rank the original relative order is preserved. *)
Theorem populate_edge_catalog (h : host) (st : state) :
  voices st = [] -> isEdge h = true ->
  let kept := filter (edge_keep h) (getVoices h) in
  let catalog := voices (populateVoiceList h st) in
  (forall v, In v kept <-> In v (getVoices h) /\ edge_allowed h v) /\
  catalog = stable_sort_by_rank kept /\
  Permutation kept catalog /\
  StronglySorted (key_le voice_rank) catalog /\
  (forall r, filter (has_rank r) catalog = filter (has_rank r) kept).
Proof.
  intros Hv He kept catalog.
  assert (Hcat : catalog = Array_sort compare_voices kept)
    by (apply populate_edge_voices; assumption).
  assert (Hsorted : StronglySorted (key_le voice_rank) catalog).
  { apply (StronglySorted_key_ext rank); [exact rank_voice_rank|].
    rewrite Hcat. apply (Array_sort_sorted rank). }
  assert (Hbucket : forall r, filter (has_rank r) catalog = filter (has_rank r) kept).
  { intros r. unfold has_rank.
    rewrite <- !(filter_key_ext rank voice_rank r _ rank_voice_rank).
    rewrite Hcat. apply (Array_sort_bucket rank). }
  split; [|split; [|split; [|split]]]; auto.
  - intros v. unfold kept. rewrite filter_In, edge_keep_allowed. reflexivity.
  - unfold stable_sort_by_rank.
    rewrite (sorted_is_buckets voice_rank 9 0 catalog Hsorted) at 1.
    + cbn [seq map]. rewrite !flat_map_concat_map. f_equal.
      apply map_ext. intros r. apply Hbucket.
    + apply Forall_forall. intros v _. apply voice_rank_range.
  - rewrite Hcat. apply (Array_sort_perm rank).
Qed.

Lemma populate_edge_catalog_witness :
  voices (populateVoiceList edge_host initial_state) =
  stable_sort_by_rank (filter (edge_keep edge_host) (getVoices edge_host)).
Proof.
  exact (proj1 (proj2 (populate_edge_catalog edge_host initial_state eq_refl eq_refl))).
Defined.

(** The example Edge host: the French voice is dropped and the rest is
    ordered Chinese, American English, British English, Japanese. *)
Example populate_edge_host :
  voices (populateVoiceList edge_host initial_state) =
  [voice_xiaoxiao; voice_emma; voice_sonia; voice_nanami].
Proof. vm_compute. reflexivity. Qed.

(** The guard at the top of [populateVoiceList]. *)
Lemma populate_guard (h : host) (st : state) :
  voices st <> [] -> populateVoiceList h st = st.
Proof.
  intros Hne. unfold populateVoiceList.
  apply nonempty_length in Hne. now rewrite Hne.
Qed.

(** C9: a call of populateVoiceList made while the catalog is non-empty
    returns at once, whatever the host reports at that call: the catalog
    and both speaker selections (and the rest of the state) are as they
    were. *)
Theorem populate_idempotent (h : host) (st : state) :
  voices st <> [] ->
  let st' := populateVoiceList h st in
  voices st' = voices st /\
  speaker1VoiceURI st' = speaker1VoiceURI st /\
  speaker2VoiceURI st' = speaker2VoiceURI st /\
  st' = st.
Proof.
  intros Hne st'. unfold st'. rewrite (populate_guard h st Hne). now repeat split.
Qed.

Lemma populate_idempotent_witness :
  let st1 := populateVoiceList edge_host initial_state in
  populateVoiceList french_host st1 = st1.
Proof.
  refine (proj2 (proj2 (proj2 (populate_idempotent french_host
                                 (populateVoiceList edge_host initial_state) _)))).
  vm_compute. discriminate.
Defined.

(** What populateVoiceList stores as the catalog when it gets past its
    guard with a non-empty host list. *)
Lemma populate_voices_filtered (h : host) (st : state) :
  voices st = [] -> getVoices h <> [] ->
  voices (populateVoiceList h st) = [] <-> filter (vendor_keep h) (getVoices h) = [].
Proof.
  intros Hv Hg. unfold populateVoiceList, vendor_keep.
  apply nonempty_length in Hg. rewrite Hv, Hg. cbn.
  destruct (isChrome h); [reflexivity|].
  destruct (isEdge h); [|reflexivity].
  cbn. apply Array_sort_nil_iff.
Qed.

(** C5 as stated fails: a host whose only voice is French leaves the catalog
    empty and no error is reported. *)
Lemma populate_nonempty_or_error_counterexample :
  ~ (voices (populateVoiceList french_host initial_state) <> [] \/
     errorMessage (populateVoiceList french_host initial_state) = MsgUnsupported).
Proof.
  vm_compute. intros [H | H]; [now apply H | discriminate].
Qed.

(** C5, amended: after populateVoiceList the catalog is non-empty, or the
    unsupported-environment message is set, or the host reported voices and
    the filter of the browser's branch rejected every one of them (the
    catalog is then empty and the message is the one from before the call). *)
Theorem populate_nonempty_or_error (h : host) (st : state) :
  let st' := populateVoiceList h st in
  voices st' <> [] \/
  errorMessage st' = MsgUnsupported \/
  (getVoices h <> [] /\ filter (vendor_keep h) (getVoices h) = [] /\
   voices st' = [] /\ errorMessage st' = errorMessage st).
Proof.
  intros st'.
  destruct (voices st) as [|v0 vs0] eqn:Hv.
  2:{ left. unfold st'. rewrite populate_guard; rewrite Hv; discriminate. }
  destruct (getVoices h) as [|g gs] eqn:Hg.
  { right; left. unfold st', populateVoiceList. rewrite Hv, Hg. reflexivity. }
  assert (Hg' : getVoices h <> []) by (rewrite Hg; discriminate).
  destruct (voices st') as [|v vs] eqn:Hv'; [|left; discriminate].
  right; right. rewrite <- Hg.
  split; [exact Hg'|]. split; [now apply (populate_voices_filtered h st)|].
  split; [reflexivity|].
  unfold st', populateVoiceList. rewrite Hv, Hg. cbn.
  destruct (isChrome h); [reflexivity|]. destruct (isEdge h); reflexivity.
Qed.

(* ===================================================================== *)
(** * Line dispatcher: properties *)
(* ===================================================================== *)

Lemma utterances_app (es1 es2 : list effect) :
  utterances (es1 ++ es2) = utterances es1 ++ utterances es2.
Proof.
  induction es1 as [|e es1 IH]; [reflexivity|].
  destruct e; cbn; rewrite IH; reflexivity.
Qed.

Lemma utterances_cancel (h : host) : utterances (cancel_if_speaking h) = [].
Proof. unfold cancel_if_speaking. now destruct (speaking h). Qed.


Lemma same_selection_trans (a b c : state) :
  same_selection a b -> same_selection b c -> same_selection a c.
Proof.
  intros (H1 & H2 & H3) (H4 & H5 & H6). repeat split; congruence.
Qed.

Lemma resolve_line_same (st st' : state) (line : jsstring) :
  same_selection st st' -> resolve_line st' line = resolve_line st line.
Proof.
  intros (Hv & H1 & H2). unfold resolve_line, find_voice.
  now rewrite Hv, H1, H2.
Qed.

(** The wait of [readAloud] ends as soon as the engine signals [end]; the
    handlers leave the catalog, the selections and the indicator alone. *)
Lemma await_onend_resolved (evs : list utterance_event) : forall st,
  In OnEnd evs ->
  exists st', await_onend evs st = (st', true) /\ same_selection st st' /\
              currentLineIndex st' = currentLineIndex st.
Proof.
  induction evs as [|ev evs IH]; intros st Hin; [destruct Hin|].
  destruct ev as [|e]; cbn.
  - exists st. now repeat split.
  - destruct Hin as [Hin|Hin]; [discriminate|].
    destruct (IH (set_errorMessage (MsgUtteranceError e) st) Hin)
      as (st' & Heq & Hsel & Hidx).
    exists st'. split; [exact Heq|]. split; [|exact Hidx].
    eapply same_selection_trans; [|exact Hsel]. now repeat split.
Qed.

(** The loop of [readAloud] on resolvable lines and an engine that ends
    every utterance. *)
Lemma readAloud_from_completes (h : host) (st0 : state) (lines : list jsstring) :
  forall (i : nat) (st : state),
  same_selection st0 st ->
  Forall (resolvable st0) lines ->
  (forall k utterText voice, In OnEnd (respond h k utterText voice)) ->
  let r := readAloud_from h lines i st in
  ending r = Completed /\
  currentLineIndex (final r) = None /\
  same_selection st0 (final r) /\
  effects r = dispatch_effects st0 i lines ++ [SetCurrentLine None].
Proof.
  induction lines as [|line rest IH]; intros i st Hsel Hres Hend.
  - cbn. repeat split; apply Hsel.
  - inversion Hres as [|? ? [voice Hvoice] Hrest]; subst.
    cbn [readAloud_from dispatch_effects]. unfold line_effects.
    rewrite (resolve_line_same st0 st line Hsel).
    destruct (resolve_line st0 line) as [utterText ov]. cbn in Hvoice. subst ov.
    destruct (await_onend_resolved (respond h i utterText voice)
                (set_currentLineIndex (Some i) st) (Hend i utterText voice))
      as (st' & Heq & Hsel' & _).
    rewrite Heq.
    assert (Hsel0 : same_selection st0 st').
    { eapply same_selection_trans; [exact Hsel|].
      eapply same_selection_trans; [|exact Hsel']. now repeat split. }
    destruct (IH (S i) st' Hsel0 Hrest Hend) as (He & Hc & Hs & Hf).
    cbn. rewrite Hf. repeat split; assumption || apply Hs.
Qed.

Lemma utterances_dispatch_effects (st : state) (lines : list jsstring) :
  forall i, Forall (resolvable st) lines ->
  utterances (dispatch_effects st i lines) =
  map (fun line => (fst (resolve_line st line),
                    match snd (resolve_line st line) with
                    | Some v => v
                    | None => mkVoice [] [] []
                    end)) lines.
Proof.
  induction lines as [|line rest IH]; intros i Hres; [reflexivity|].
  inversion Hres as [|? ? [voice Hvoice] Hrest]; subst.
  cbn [dispatch_effects map]. rewrite utterances_app, (IH (S i) Hrest).
  unfold line_effects. destruct (resolve_line st line) as [t ov].
  cbn in Hvoice. subst ov. reflexivity.
Qed.









(** C3, the failing input: two lines, the engine reports an error (and, as
    the Web Speech API prescribes, no [end]) for the first.  The message is
    recorded, but the wait of the first line is never resolved: readAloud
    stays suspended, the second line is never submitted and the indicator
    stays on line 0. *)
Theorem readAloud_error_stalls :
  let r := readAloud failing_host (reader_state two_lines) in
  plan two_lines = [js "Speaker 1:Hello"; js "Speaker 2: Ni hao"] /\
  ending r = Suspended /\
  effects r = [SetCurrentLine (Some 0%nat); SynthSpeak (js "Hello") voice_emma] /\
  errorMessage (final r) = MsgUtteranceError (js "synthesis-failed") /\
  currentLineIndex (final r) = Some 0%nat.
Proof. vm_compute. repeat split. Qed.

(** ** Missing input *)

Lemma readAloud_missing (h : host) (st : state) :
  text st = [] \/ voices st = [] ->
  readAloud h st =
  mkResult (set_errorMessage MsgMissingInput st) (cancel_if_speaking h) Completed.
Proof.
  intros H. unfold readAloud.
  assert (E : negb (JsString.eqb (text st) []) && (0 <? List.length (voices st))%nat = false).
  { destruct H as [-> | ->]; [reflexivity|]. now rewrite andb_false_r. }
  rewrite E. unfold emit. cbn. now rewrite app_nil_r.
Qed.

Lemma speak_missing (h : host) (st : state) :
  text st = [] \/ voices st = [] ->
  speak h st =
  mkResult (set_errorMessage MsgMissingInput st) (cancel_if_speaking h) Completed.
Proof.
  intros H. unfold speak.
  assert (E : JsString.eqb (text st) [] || (List.length (voices st) =? 0)%nat = true).
  { destruct H as [-> | ->]; [reflexivity|]. now rewrite orb_true_r. }
  rewrite E. unfold emit. cbn. now rewrite app_nil_r.
Qed.

(** [speak] past its first guard. *)
Lemma speak_started (h : host) (st : state) :
  text st <> [] -> voices st <> [] ->
  speak h st =
  emit (cancel_if_speaking h)
    (emit [RequestDisplayMedia]
       (match getDisplayMedia h with
        | CapturePending => mkResult (set_errorMessage MsgSharePrompt st) [] Suspended
        | CaptureRejected => mkResult (set_errorMessage MsgCaptureDenied st) [] Completed
        | CaptureGranted session =>
            emit [TapConnected]
              (speak_from h session (plan (text st)) 0 (set_errorMessage MsgRecording st))
        end)).
Proof.
  intros Ht Hv. unfold speak, startWavRecorder.
  apply JsString_eqb_neq in Ht. rewrite Ht.
  destruct (voices st) as [|v vs]; [now contradiction Hv|]. cbn.
  destruct (getDisplayMedia h); reflexivity.
Qed.

Lemma readAloud_started (h : host) (st : state) :
  text st <> [] -> voices st <> [] ->
  readAloud h st =
  emit (cancel_if_speaking h)
    (readAloud_from h (plan (text st)) 0 (set_errorMessage MsgEmpty st)).
Proof.
  intros Ht Hv. unfold readAloud.
  apply JsString_eqb_neq in Ht. apply nonempty_length in Hv.
  now rewrite Ht, Hv.
Qed.

Lemma list_nil_dec {A : Type} (l : list A) : l = [] \/ l <> [].
Proof. destruct l; [now left | right; discriminate]. Qed.





(** ** Recording mode *)

(** The utterances of [speak] all come after the capture request and the
    connection of the tap. *)
Lemma speak_effects_shape (h : host) (st : state) :
  text st <> [] -> voices st <> [] ->
  match getDisplayMedia h with
  | CaptureGranted session =>
      exists rest, effects (speak h st) =
        cancel_if_speaking h ++ RequestDisplayMedia :: TapConnected :: rest
  | _ => effects (speak h st) = cancel_if_speaking h ++ [RequestDisplayMedia]
  end.
Proof.
  intros Ht Hv. rewrite (speak_started h st Ht Hv).
  destruct (getDisplayMedia h); cbn; eauto.
Qed.

(** C6: in speak, every utterance is submitted after the capture request
    has been made and granted and the tap connected: if any utterance is
    submitted at all, the host granted the capture and the effects start
    (after the optional cancel) with the request and the connection.  If
    the request is rejected no utterance is submitted, and, the request
    having been made (text and catalog non-empty), the capture-denied status
    is set and speak completes right after the request. *)
Theorem speak_capture_before_speech (h : host) (st : state) :
  let r := speak h st in
  (utterances (effects r) <> [] ->
   exists session rest,
     getDisplayMedia h = CaptureGranted session /\
     effects r = cancel_if_speaking h ++ RequestDisplayMedia :: TapConnected :: rest) /\
  (getDisplayMedia h = CaptureRejected ->
   utterances (effects r) = [] /\
   (text st <> [] -> voices st <> [] ->
    effects r = cancel_if_speaking h ++ [RequestDisplayMedia] /\
    errorMessage (final r) = MsgCaptureDenied /\
    ending r = Completed)).
Proof.
  intros r.
  assert (Hmiss : text st = [] \/ voices st = [] -> utterances (effects r) = []).
  { intros Hm. unfold r. rewrite (speak_missing h st Hm). apply utterances_cancel. }
  split.
  - intros Hu.
    destruct (list_nil_dec (text st)) as [Ht | Ht]; [now rewrite Hmiss in Hu; auto|].
    destruct (list_nil_dec (voices st)) as [Hv | Hv]; [now rewrite Hmiss in Hu; auto|].
    pose proof (speak_effects_shape h st Ht Hv) as Hs. fold r in Hs.
    destruct (getDisplayMedia h) as [session| |].
    + destruct Hs as [rest Hs]. now exists session, rest.
    + rewrite Hs, utterances_app, utterances_cancel in Hu. now contradiction Hu.
    + rewrite Hs, utterances_app, utterances_cancel in Hu. now contradiction Hu.
  - intros Hrej. split.
    + destruct (list_nil_dec (text st)) as [Ht | Ht]; [now apply Hmiss; left|].
      destruct (list_nil_dec (voices st)) as [Hv | Hv]; [now apply Hmiss; right|].
      pose proof (speak_effects_shape h st Ht Hv) as Hs. fold r in Hs.
      rewrite Hrej in Hs. rewrite Hs, utterances_app, utterances_cancel. reflexivity.
    + intros Ht Hv. unfold r. rewrite (speak_started h st Ht Hv), Hrej.
      cbn. repeat split.
Qed.

Lemma speak_capture_before_speech_witness :
  (exists session rest,
     getDisplayMedia recording_host = CaptureGranted session /\
     effects (speak recording_host (reader_state two_lines)) =
     cancel_if_speaking recording_host ++ RequestDisplayMedia :: TapConnected :: rest) /\
  errorMessage (final (speak quiet_host (reader_state two_lines))) = MsgCaptureDenied.
Proof.
  split.
  - apply (proj1 (speak_capture_before_speech recording_host (reader_state two_lines))).
    vm_compute. discriminate.
  - destruct (proj2 (speak_capture_before_speech quiet_host (reader_state two_lines))
                eq_refl) as [_ H].
    apply H; vm_compute; discriminate.
Defined.

(** The loop of [speak] when the utterance of the line at position [k]
    is the first to get an [error] signal. *)
Lemma speak_from_error (h : host) (session : capture_session) (st : state) (k : nat) :
  forall (lines : list jsstring) (i : nat) (raw : jsstring),
  nth_error lines k = Some raw ->
  (forall j line, (j < k)%nat -> nth_error lines j = Some line ->
     exists voice evs,
       snd (resolve_line st line) = Some voice /\
       respond h (i + j) (fst (resolve_line st line)) voice = OnEnd :: evs) ->
  (exists voice e evs,
     snd (resolve_line st raw) = Some voice /\
     respond h (i + k) (fst (resolve_line st raw)) voice = OnError e :: evs) ->
  let r := speak_from h session lines i st in
  ending r = Rejected /\
  final r = set_errorMessage MsgSpeakError st /\
  List.length (effects r) = S k /\
  Forall (fun e => exists utterText voice, e = SynthSpeak utterText voice) (effects r).
Proof.
  induction k as [|k IH]; intros lines i raw Hnth Hbefore Herr.
  - destruct lines as [|line rest]; [discriminate|]. injection Hnth as ->.
    destruct Herr as (voice & e & evs & Hres & Hresp).
    rewrite Nat.add_0_r in Hresp.
    cbn [speak_from]. destruct (resolve_line st raw) as [utterText ov].
    cbn [fst snd] in Hres, Hresp. subst ov. rewrite Hresp. cbn.
    repeat split. repeat constructor. eauto.
  - destruct lines as [|line rest]; [discriminate|]. cbn [nth_error] in Hnth.
    destruct (Hbefore 0%nat line) as (voice & evs & Hres & Hresp);
      [lia | reflexivity |].
    rewrite Nat.add_0_r in Hresp.
    cbn [speak_from]. destruct (resolve_line st line) as [utterText ov].
    cbn [fst snd] in Hres, Hresp. subst ov. rewrite Hresp. cbn [await_settled].
    destruct (IH rest (S i) raw Hnth) as (He & Hf & Hl & Hall).
    + intros j l Hj Hl. specialize (Hbefore (S j) l).
      rewrite Nat.add_succ_r in Hbefore. apply Hbefore; [lia | exact Hl].
    + now rewrite Nat.add_succ_r in Herr.
    + cbn. repeat split; try assumption.
      * now rewrite Hl.
      * constructor; [eauto | exact Hall].
Qed.

(** C10: in speak, with the capture granted, when the utterance of the line
    of index [k] gets an error signal (the lines before it having been
    spoken to their end), speak ends rejected at that line with the
    read-error status: the utterances of lines 0..k are all it submitted
    after the capture was set up, the tap is never disconnected, and nothing
    is downloaded, so no waveform is produced. *)
Theorem speak_error_skips_stop (h : host) (st : state) (session : capture_session)
  (k : nat) (raw : jsstring) :
  text st <> [] -> voices st <> [] ->
  getDisplayMedia h = CaptureGranted session ->
  nth_error (plan (text st)) k = Some raw ->
  (forall j line, (j < k)%nat -> nth_error (plan (text st)) j = Some line ->
     exists voice evs,
       snd (resolve_line st line) = Some voice /\
       respond h j (fst (resolve_line st line)) voice = OnEnd :: evs) ->
  (exists voice e evs,
     snd (resolve_line st raw) = Some voice /\
     respond h k (fst (resolve_line st raw)) voice = OnError e :: evs) ->
  let r := speak h st in
  ending r = Rejected /\
  errorMessage (final r) = MsgSpeakError /\
  List.length (utterances (effects r)) = S k /\
  ~ In TapDisconnected (effects r) /\
  (forall fileName content, ~ In (Download fileName content) (effects r)).
Proof.
  intros Ht Hv Hg Hnth Hbefore Herr r.
  set (st1 := set_errorMessage MsgRecording st).
  assert (Hsel : same_selection st st1) by now repeat split.
  destruct (speak_from_error h session st1 k (plan (text st)) 0 raw Hnth)
    as (He & Hf & Hl & Hall).
  { intros j line Hj Hline. cbn [Nat.add].
    rewrite (resolve_line_same st st1 line Hsel). now apply Hbefore. }
  { cbn [Nat.add]. now rewrite (resolve_line_same st st1 raw Hsel). }
  assert (Hr : r = emit (cancel_if_speaking h)
                 (emit [RequestDisplayMedia]
                    (emit [TapConnected] (speak_from h session (plan (text st)) 0 st1)))).
  { unfold r. rewrite (speak_started h st Ht Hv), Hg. reflexivity. }
  set (loop := speak_from h session (plan (text st)) 0 st1) in *.
  assert (Heff : effects r =
                 cancel_if_speaking h ++ RequestDisplayMedia :: TapConnected :: effects loop)
    by (rewrite Hr; reflexivity).
  assert (Hin : forall e, In e (effects r) ->
                  e = SynthCancel \/ e = RequestDisplayMedia \/ e = TapConnected \/
                  exists utterText voice, e = SynthSpeak utterText voice).
  { intros e. rewrite Heff, in_app_iff. cbn [In].
    intros [Hc | [<- | [<- | Hloop]]]; auto.
    - left. unfold cancel_if_speaking in Hc.
      destruct (speaking h); cbn in Hc; [|destruct Hc].
      destruct Hc as [<- | []]. reflexivity.
    - right; right; right. rewrite Forall_forall in Hall. now apply Hall. }
  assert (Hutt : forall es, Forall (fun e => exists t v, e = SynthSpeak t v) es ->
                            List.length (utterances es) = List.length es).
  { induction 1 as [|e es (t & v & ->) _ IHes]; cbn; congruence. }
  repeat split.
  - rewrite Hr. exact He.
  - rewrite Hr. cbn. now rewrite Hf.
  - rewrite Heff, utterances_app, utterances_cancel. cbn.
    now rewrite (Hutt _ Hall).
  - intros Hd. apply Hin in Hd.
    destruct Hd as [Hd | [Hd | [Hd | (t & v & Hd)]]]; discriminate.
  - intros fileName content Hd. apply Hin in Hd.
    destruct Hd as [Hd | [Hd | [Hd | (t & v & Hd)]]]; discriminate.
Qed.

Lemma speak_error_skips_stop_witness :
  let r := speak failing_host (reader_state two_lines) in
  ending r = Rejected /\
  errorMessage (final r) = MsgSpeakError /\
  List.length (utterances (effects r)) = 1%nat /\
  ~ In TapDisconnected (effects r) /\
  (forall fileName content, ~ In (Download fileName content) (effects r)).
Proof.
  apply (speak_error_skips_stop failing_host (reader_state two_lines) short_capture
           0 (js "Speaker 1:Hello")).
  - vm_compute. discriminate.
  - vm_compute. discriminate.
  - reflexivity.
  - vm_compute. reflexivity.
  - intros j line Hj. lia.
  - exists voice_emma, (js "synthesis-failed"), []. split; vm_compute; reflexivity.
Defined.

(** The same host and text with a working engine: the recorder is stopped
    and the file is downloaded after the two utterances. *)
Example speak_records_and_downloads :
  exists wav,
    stop short_capture = Some wav /\
    effects (speak recording_host (reader_state two_lines)) =
    [SynthCancel; RequestDisplayMedia; TapConnected;
     SynthSpeak (js "Hello") voice_emma; SynthSpeak (js "Ni hao") voice_xiaoxiao;
     TapDisconnected; Download (js "tts-audio.wav") wav].
Proof. eexists. split; vm_compute; reflexivity. Qed.

(* ===================================================================== *)
(** * Waveform encoder: properties *)
(* ===================================================================== *)

(** ** Writes into a buffer *)

Lemma upds_inside {E : Type} (view : list E) (o : nat) (bs : list E) :
  (o + List.length bs <= List.length view)%nat ->
  List.upds view o bs = firstn o view ++ bs ++ skipn (o + List.length bs) view.
Proof.
  intros H. unfold List.upds.
  rewrite (firstn_all2 (n := List.length view - o) bs) by lia.
  now rewrite (Nat.add_comm (List.length bs) o).
Qed.

Lemma set_bytes_inside (view : ArrayBuffer) (o : nat) (bs : list byte) :
  (o + List.length bs <= List.length view)%nat ->
  set_bytes view o bs = Some (List.upds view o bs).
Proof.
  intros H. unfold set_bytes. apply Nat.leb_le in H. now rewrite H.
Qed.

(** Overwriting the segment between [pre] and [post]. *)
Lemma set_bytes_segment (pre old post bs : list byte) :
  List.length old = List.length bs ->
  set_bytes (pre ++ old ++ post) (List.length pre) bs = Some (pre ++ bs ++ post).
Proof.
  intros Hlen. rewrite set_bytes_inside by (rewrite !length_app; lia).
  f_equal. rewrite upds_inside by (rewrite !length_app; lia).
  rewrite firstn_app, firstn_all, Nat.sub_diag, firstn_O, app_nil_r.
  f_equal. f_equal.
  rewrite skipn_app, skipn_all2 by lia. cbn [app].
  rewrite <- Hlen.
  replace (List.length pre + List.length old - List.length pre)%nat
    with (List.length old) by lia.
  rewrite skipn_app, skipn_all, Nat.sub_diag. reflexivity.
Qed.

Lemma length_char_bytes (s : jsstring) : List.length (char_bytes s) = List.length s.
Proof.
  induction s as [|c s IH]; [reflexivity|].
  change (char_bytes (c :: s))
    with (le_split 1 (Number.ToUint8 (Z.of_N c)) ++ char_bytes s).
  rewrite length_app, length_le_split, IH. reflexivity.
Qed.

(** [w(o, s)] writes the code units of [s], each reduced to a byte, as one
    block. *)
Lemma w_from_block (s : jsstring) : forall (view : ArrayBuffer) (o i : nat),
  (o + i + List.length s <= List.length view)%nat ->
  w_from view o s i = set_bytes view (o + i) (char_bytes s).
Proof.
  induction s as [|c s IH]; intros view o i H.
  - cbn [w_from char_bytes flat_map]. unfold set_bytes. rewrite List.upds_nil'.
    cbn [List.length] in *.
    destruct (Nat.leb_spec (o + i + 0) (List.length view)); [reflexivity | lia].
  - cbn [w_from List.length] in *. unfold setUint8.
    rewrite set_bytes_inside by (rewrite length_le_split; lia).
    rewrite IH by (rewrite List.upds_length; lia).
    rewrite !set_bytes_inside; cycle 1.
    { rewrite length_char_bytes. cbn [List.length]. lia. }
    { rewrite List.upds_length, length_char_bytes. lia. }
    f_equal. change (char_bytes (c :: s))
      with (le_split 1 (Number.ToUint8 (Z.of_N c)) ++ char_bytes s).
    rewrite List.upds_app. f_equal. rewrite length_le_split. lia.
Qed.

Lemma w_block (view : ArrayBuffer) (o : nat) (s : jsstring) :
  (o + List.length s <= List.length view)%nat ->
  w view o s = set_bytes view o (char_bytes s).
Proof.
  intros H. unfold w. rewrite w_from_block by lia. now rewrite Nat.add_0_r.
Qed.

(** A write that starts where the written part [done] of the buffer ends. *)
Lemma set_bytes_next (done bs : list byte) (m o : nat) :
  o = List.length done -> (List.length bs <= m)%nat ->
  set_bytes (done ++ repeat Byte.x00 m) o bs =
  Some ((done ++ bs) ++ repeat Byte.x00 (m - List.length bs)).
Proof.
  intros -> Hm.
  replace m with (List.length bs + (m - List.length bs))%nat at 1 by lia.
  rewrite repeat_app, <- app_assoc.
  apply set_bytes_segment. apply repeat_length.
Qed.

Lemma w_next (done : list byte) (s : jsstring) (m o : nat) :
  o = List.length done -> (List.length s <= m)%nat ->
  w (done ++ repeat Byte.x00 m) o s =
  Some ((done ++ char_bytes s) ++ repeat Byte.x00 (m - List.length s)).
Proof.
  intros Ho Hm. rewrite w_block by (rewrite length_app, repeat_length; lia).
  rewrite set_bytes_next by (rewrite ?length_char_bytes; auto).
  now rewrite length_char_bytes.
Qed.

(** ** The sample loops *)

Lemma write_block_spec (f32 : list float) : forall (done : list byte) (m : nat),
  (2 * List.length f32 <= m)%nat ->
  write_block f32 (done ++ repeat Byte.x00 m) (List.length done) =
  Some ((done ++ flat_map pcm16_of_sample f32) ++ repeat Byte.x00 (m - 2 * List.length f32),
        (List.length done + 2 * List.length f32)%nat).
Proof.
  induction f32 as [|x rest IH]; intros done m Hm.
  - cbn. now rewrite app_nil_r, Nat.sub_0_r, Nat.add_0_r.
  - cbn [write_block List.length flat_map] in *.
    change (setInt16 ?v ?o _) with (set_bytes v o (pcm16_of_sample x)).
    assert (Hl : List.length (pcm16_of_sample x) = 2%nat) by apply length_le_split.
    rewrite set_bytes_next; [| reflexivity | rewrite Hl; lia]. rewrite Hl.
    replace (List.length done + 2)%nat with (List.length (done ++ pcm16_of_sample x))
      by (rewrite length_app, Hl; reflexivity).
    rewrite IH by lia.
    rewrite length_app, Hl, <- !app_assoc.
    replace (m - 2 - 2 * List.length rest)%nat
      with (m - 2 * S (List.length rest))%nat by lia.
    replace (List.length done + 2 + 2 * List.length rest)%nat
      with (List.length done + 2 * S (List.length rest))%nat by lia.
    reflexivity.
Qed.

Lemma length_flat_map_pcm16 (f32 : list float) :
  List.length (flat_map pcm16_of_sample f32) = (2 * List.length f32)%nat.
Proof.
  induction f32 as [|x rest IH]; [reflexivity|].
  cbn [flat_map List.length]. rewrite length_app, IH.
  unfold pcm16_of_sample. rewrite length_le_split. lia.
Qed.

Lemma write_blocks_spec (blocks : list (list float)) : forall (done : list byte) (m : nat),
  (2 * List.length (List.concat blocks) <= m)%nat ->
  write_blocks blocks (done ++ repeat Byte.x00 m) (List.length done) =
  Some ((done ++ flat_map pcm16_of_sample (List.concat blocks)) ++
          repeat Byte.x00 (m - 2 * List.length (List.concat blocks)),
        (List.length done + 2 * List.length (List.concat blocks))%nat).
Proof.
  induction blocks as [|f32 rest IH]; intros done m Hm.
  - cbn. now rewrite app_nil_r, Nat.sub_0_r, Nat.add_0_r.
  - cbn [write_blocks List.concat] in *. rewrite length_app in Hm.
    rewrite write_block_spec by lia. cbn [fst snd].
    replace (List.length done + 2 * List.length f32)%nat
      with (List.length (done ++ flat_map pcm16_of_sample f32))
      by (now rewrite length_app, length_flat_map_pcm16).
    rewrite IH by lia.
    rewrite flat_map_app, !length_app, length_flat_map_pcm16, <- !app_assoc.
    replace (m - 2 * List.length f32 - 2 * List.length (List.concat rest))%nat
      with (m - 2 * (List.length f32 + List.length (List.concat rest)))%nat by lia.
    replace (List.length done + 2 * List.length f32 + 2 * List.length (List.concat rest))%nat
      with (List.length done + 2 * (List.length f32 + List.length (List.concat rest)))%nat by lia.
    reflexivity.
Qed.

Lemma fold_left_lengths {A : Type} (blocks : list (list A)) : forall acc,
  fold_left (fun sum a => (sum + List.length a)%nat) blocks acc =
  (acc + List.length (List.concat blocks))%nat.
Proof.
  induction blocks as [|b rest IH]; intros acc; cbn; [lia|].
  rewrite IH, length_app. lia.
Qed.

Lemma le_split_wrap (n : nat) (z : Z) :
  le_split n (z mod 2 ^ (Z.of_nat n * 8)) = le_split n z.
Proof.
  rewrite <- le_combine_split.
  rewrite <- (length_le_split n z) at 1.
  apply split_le_combine.
Qed.

Lemma le_split_ToUint32 (z : Z) : le_split 4 (Number.ToUint32 z) = le_split 4 z.
Proof. exact (le_split_wrap 4 z). Qed.

Lemma le_split_ToUint16 (z : Z) : le_split 2 (Number.ToUint16 z) = le_split 2 z.
Proof. exact (le_split_wrap 2 z). Qed.

Ltac buffer_side :=
  rewrite ?length_app, ?length_char_bytes, ?length_le_split;
  cbn [List.length JsString.lit map list_ascii_of_string];
  first [reflexivity | lia].

Ltac buffer_step :=
  first [ rewrite w_next by buffer_side
        | unfold setUint32 at 1; rewrite set_bytes_next by buffer_side
        | unfold setUint16 at 1; rewrite set_bytes_next by buffer_side ];
  cbv beta iota.

(** The bytes [stop] returns. *)
Lemma stop_bytes (session : capture_session) :
  stop session =
  Some (wav_header (Z.of_nat (2 * List.length (List.concat (samples session))))
                   (sampleRate session) ++
        flat_map pcm16_of_sample (List.concat (samples session))).
Proof.
  unfold stop. rewrite fold_left_lengths, Nat.add_0_l.
  set (pcm := flat_map pcm16_of_sample (List.concat (samples session))).
  set (n := List.length (List.concat (samples session))).
  assert (Hpcm : List.length pcm = (2 * n)%nat) by apply length_flat_map_pcm16.
  pose proof (write_blocks_spec (samples session) [] (n * 2)) as Hw.
  cbn [app List.length] in Hw. rewrite Nat.add_0_l in Hw. fold n pcm in Hw.
  unfold new_ArrayBuffer at 1. rewrite Hw by lia. cbv beta iota. cbn [fst].
  replace (n * 2 - 2 * n)%nat with 0%nat by lia.
  cbn [repeat]. rewrite app_nil_r, Hpcm.
  unfold new_ArrayBuffer.
  change (repeat Byte.x00 (44 + 2 * n)) with ([] ++ repeat Byte.x00 (44 + 2 * n)).
  do 13 buffer_step.
  rewrite set_bytes_next by buffer_side.
  replace (List.length pcm) with (2 * n)%nat by (symmetry; exact Hpcm).
  match goal with |- Some (_ ++ repeat _ ?k) = _ => replace k with 0%nat by buffer_side end.
  cbn [repeat]. rewrite app_nil_r.
  rewrite !le_split_ToUint32, !le_split_ToUint16.
  unfold wav_header. rewrite <- !app_assoc. reflexivity.
Qed.

Lemma getUint_here (bs rest : list byte) (k : nat) :
  List.length bs = k -> getUint (bs ++ rest) 0 k = le_combine bs.
Proof.
  intros <-. unfold getUint. cbn [skipn].
  now rewrite firstn_app, firstn_all, Nat.sub_diag, firstn_O, app_nil_r.
Qed.

Lemma getUint_skip (bs rest : list byte) (o k : nat) :
  (List.length bs <= o)%nat ->
  getUint (bs ++ rest) o k = getUint rest (o - List.length bs) k.
Proof.
  intros H. unfold getUint.
  now rewrite skipn_app, skipn_all2, app_nil_l by exact H.
Qed.

Lemma slice_here {E : Type} (bs rest : list E) (k : nat) :
  List.length bs = k -> firstn k (skipn 0 (bs ++ rest)) = bs.
Proof.
  intros <-. cbn [skipn].
  now rewrite firstn_app, firstn_all, Nat.sub_diag, firstn_O, app_nil_r.
Qed.

Lemma slice_skip {E : Type} (bs rest : list E) (o k : nat) :
  (List.length bs <= o)%nat ->
  firstn k (skipn o (bs ++ rest)) = firstn k (skipn (o - List.length bs) rest).
Proof.
  intros H. now rewrite skipn_app, skipn_all2, app_nil_l by exact H.
Qed.

Lemma le_combine_split_small (n : nat) (z : Z) :
  (0 <= z < 2 ^ (Z.of_nat n * 8))%Z -> le_combine (le_split n z) = z.
Proof. intros H. rewrite le_combine_split. now apply Z.mod_small. Qed.

Ltac header_lengths :=
  rewrite ?length_char_bytes, ?length_le_split;
  cbn [List.length JsString.lit map list_ascii_of_string Nat.sub].

Ltac header_field :=
  intros;
  repeat (rewrite getUint_skip by (header_lengths; lia); header_lengths);
  rewrite getUint_here by (header_lengths; reflexivity);
  rewrite le_combine_split_small;
  change (2 ^ (Z.of_nat 4 * 8))%Z with 4294967296%Z;
  change (2 ^ (Z.of_nat 2 * 8))%Z with 65536%Z;
  change (2 ^ 32)%Z with 4294967296%Z in *; lia.

Ltac header_tag :=
  repeat (rewrite slice_skip by (header_lengths; lia); header_lengths);
  rewrite slice_here by (header_lengths; reflexivity);
  reflexivity.

(** C2: for sample blocks with N samples in all and a sample rate R, stop
    returns a buffer of exactly 44 + 2N bytes: "RIFF", chunk size 36 + 2N,
    "WAVE", "fmt ", format chunk size 16, PCM format code 1, channel count 1,
    sample rate R, byte rate 2R, block align 2, bits per sample 16, "data",
    data chunk size 2N, every number little-endian, and from byte 44 on the
    2N bytes of PCM16 data, two per sample in the order the blocks were
    pushed.  The four fields that depend on N and R hold these numbers
    whenever the number fits the 32 bits of the field. *)
Theorem stop_encodes_wav (session : capture_session) :
  let N := Z.of_nat (List.length (List.concat (samples session))) in
  let R := sampleRate session in
  exists buf,
    stop session = Some buf /\
    Z.of_nat (List.length buf) = (44 + 2 * N)%Z /\
    firstn 4 (skipn 0 buf) = char_bytes (js "RIFF") /\
    ((36 + 2 * N < 2 ^ 32)%Z -> getUint buf 4 4 = (36 + 2 * N)%Z) /\
    firstn 4 (skipn 8 buf) = char_bytes (js "WAVE") /\
    firstn 4 (skipn 12 buf) = char_bytes (js "fmt ") /\
    getUint buf 16 4 = 16%Z /\
    getUint buf 20 2 = 1%Z /\
    getUint buf 22 2 = 1%Z /\
    ((0 <= R < 2 ^ 32)%Z -> getUint buf 24 4 = R) /\
    ((0 <= 2 * R < 2 ^ 32)%Z -> getUint buf 28 4 = (2 * R)%Z) /\
    getUint buf 32 2 = 2%Z /\
    getUint buf 34 2 = 16%Z /\
    firstn 4 (skipn 36 buf) = char_bytes (js "data") /\
    ((2 * N < 2 ^ 32)%Z -> getUint buf 40 4 = (2 * N)%Z) /\
    skipn 44 buf = flat_map pcm16_of_sample (List.concat (samples session)) /\
    Z.of_nat (List.length (skipn 44 buf)) = (2 * N)%Z.
Proof.
  intros N R.
  assert (HN0 : (0 <= N)%Z) by (unfold N; lia).
  eexists. split; [apply stop_bytes|].
  set (pcm := flat_map pcm16_of_sample (List.concat (samples session))).
  assert (Hpcm : List.length pcm = (2 * List.length (List.concat (samples session)))%nat)
    by apply length_flat_map_pcm16.
  replace (Z.of_nat (2 * List.length (List.concat (samples session)))) with (2 * N)%Z
    by (unfold N; lia).
  fold R. unfold wav_header. rewrite <- !app_assoc.
  split.
  { rewrite !length_app, Hpcm. header_lengths. unfold N. lia. }
  split; [header_tag|].
  split; [header_field|].
  split; [header_tag|].
  split; [header_tag|].
  split; [header_field|].
  split; [header_field|].
  split; [header_field|].
  split; [header_field|].
  split; [header_field|].
  split; [header_field|].
  split; [header_field|].
  split; [header_tag|].
  split; [header_field|].
  repeat (rewrite skipn_app, skipn_all2 by (header_lengths; lia); header_lengths;
          cbn [app]).
  split; [reflexivity|]. cbn [skipn]. rewrite Hpcm. unfold N. lia.
Qed.

Lemma stop_encodes_wav_witness :
  exists buf,
    stop short_capture = Some buf /\
    Z.of_nat (List.length buf) = 50%Z /\
    getUint buf 4 4 = 42%Z /\
    getUint buf 24 4 = 48000%Z /\
    getUint buf 28 4 = 96000%Z /\
    getUint buf 40 4 = 6%Z.
Proof.
  destruct (stop_encodes_wav short_capture)
    as (buf & Hstop & Hlen & _ & Hriff & _ & _ & _ & _ & _ & Hrate & Hbytes & _ & _ & _ &
        Hdata & _).
  exists buf.
  split; [exact Hstop|]. split; [exact Hlen|].
  split; [apply Hriff; cbn; lia|].
  split; [apply Hrate; cbn; lia|].
  split; [apply Hbytes; cbn; lia|].
  apply Hdata; cbn; lia.
Defined.

(** Three samples (1, 0.5, -0.5) at 48 kHz: the 50 bytes of the file. *)
Example stop_short_capture :
  stop short_capture =
  Some [Byte.x52; Byte.x49; Byte.x46; Byte.x46;  Byte.x2a; Byte.x00; Byte.x00; Byte.x00;
        Byte.x57; Byte.x41; Byte.x56; Byte.x45;  Byte.x66; Byte.x6d; Byte.x74; Byte.x20;
        Byte.x10; Byte.x00; Byte.x00; Byte.x00;  Byte.x01; Byte.x00;  Byte.x01; Byte.x00;
        Byte.x80; Byte.xbb; Byte.x00; Byte.x00;  Byte.x00; Byte.x77; Byte.x01; Byte.x00;
        Byte.x02; Byte.x00;  Byte.x10; Byte.x00;
        Byte.x64; Byte.x61; Byte.x74; Byte.x61;  Byte.x06; Byte.x00; Byte.x00; Byte.x00;
        Byte.xff; Byte.x7f;  Byte.xff; Byte.x3f;  Byte.x00; Byte.xc0].
Proof. vm_compute. reflexivity. Qed.

(** [stop] never throws, so the last step of [speak] always downloads. *)
Lemma stop_and_download_completes (session : capture_session) (st : state) :
  ending (stop_and_download session st) = Completed.
Proof. unfold stop_and_download. now rewrite stop_bytes. Qed.

(** ** Float32 to PCM16 *)

Lemma SFcompare_antisym (x y : float) :
  SFcompare y x = option_map CompOpp (SFcompare x y).
Proof.
  destruct x as [[|]|[|]| |[|] mx ex], y as [[|]|[|]| |[|] my ey];
    cbn; try reflexivity;
    rewrite (Z.compare_antisym ex ey); destruct (ex ?= ey)%Z; cbn;
    rewrite ?Pos.compare_cont_antisym, ?CompOpp_involutive; reflexivity.
Qed.

Lemma SFcompare_None (x y : float) :
  SFcompare x y = None -> Number.is_nan x = true \/ Number.is_nan y = true.
Proof.
  destruct x as [[|]|[|]| |[|] mx ex], y as [[|]|[|]| |[|] my ey];
    cbn; intros H; try discriminate; auto.
Qed.

(** Against a finite number, [Eq] is structural equality. *)
Lemma SFcompare_Eq_finite (s : bool) (m : positive) (e : Z) (x : float) :
  SFcompare (S754_finite s m e) x = Some Eq -> x = S754_finite s m e.
Proof.
  destruct x as [[|]|[|]| |sx mx ex], s; cbn; intros H; try discriminate;
    destruct sx; try discriminate;
    destruct (e ?= ex)%Z eqn:Ee; try discriminate;
    apply Z.compare_eq in Ee; subst ex;
    injection H as H;
    try (apply (f_equal CompOpp) in H; rewrite CompOpp_involutive in H; cbn in H);
    apply Pos.compare_eq in H; now subst.
Qed.

Lemma clamp_is_clamp_spec (x : float) :
  Number.is_nan x = false -> clamp x = clamp_spec x.
Proof.
  intros Hx. unfold clamp, clamp_spec, Number.Math_min, Number.lt, SFltb.
  change (Number.of_Z 1) with (S754_finite false 4503599627370496 (-52)).
  change (Number.of_Z (-1)) with (S754_finite true 4503599627370496 (-52)).
  set (one := S754_finite false 4503599627370496 (-52)).
  set (minus_one := S754_finite true 4503599627370496 (-52)).
  destruct (SFcompare one x) as [[| |]|] eqn:E1.
  - apply SFcompare_Eq_finite in E1. subst x. reflexivity.
  - reflexivity.
  - unfold Number.Math_max.
    rewrite (SFcompare_antisym minus_one x).
    destruct (SFcompare minus_one x) as [[| |]|] eqn:E2; cbn [option_map CompOpp].
    + apply SFcompare_Eq_finite in E2. subst x. reflexivity.
    + reflexivity.
    + reflexivity.
    + apply SFcompare_None in E2. destruct E2 as [E2|E2]; [discriminate|congruence].
  - apply SFcompare_None in E1. destruct E1 as [E1|E1]; [discriminate|congruence].
Qed.

Lemma clamp_bounds (x : float) :
  Number.is_nan x = false ->
  Number.le (Number.of_Z (-1)) (clamp x) = true /\
  Number.le (clamp x) (Number.of_Z 1) = true.
Proof.
  intros Hx. rewrite (clamp_is_clamp_spec x Hx).
  unfold clamp_spec, Number.lt, Number.le, SFltb, SFleb.
  change (Number.of_Z 1) with (S754_finite false 4503599627370496 (-52)).
  change (Number.of_Z (-1)) with (S754_finite true 4503599627370496 (-52)).
  set (one := S754_finite false 4503599627370496 (-52)).
  set (minus_one := S754_finite true 4503599627370496 (-52)).
  destruct (SFcompare one x) as [[| |]|] eqn:E1.
  - apply SFcompare_Eq_finite in E1. subst x. split; reflexivity.
  - split; reflexivity.
  - rewrite (SFcompare_antisym minus_one x).
    destruct (SFcompare minus_one x) as [[| |]|] eqn:E2; cbn [option_map CompOpp].
    + rewrite E2, (SFcompare_antisym one x), E1. split; reflexivity.
    + rewrite E2, (SFcompare_antisym one x), E1. split; reflexivity.
    + split; reflexivity.
    + apply SFcompare_None in E2. destruct E2 as [E2|E2]; [discriminate|congruence].
  - apply SFcompare_None in E1. destruct E1 as [E1|E1]; [discriminate|congruence].
Qed.

(** ** Rounded products stay within an integer bound *)

Section RoundedProducts.
Local Open Scope Z_scope.

Lemma shr_1_m (mrs : shr_record) :
  0 <= shr_m mrs -> shr_m (shr_1 mrs) = shr_m mrs / 2.
Proof.
  destruct mrs as [m r s]. cbn [shr_m]. intros Hm.
  destruct m as [|p|p]; [reflexivity | | lia].
  destruct p as [p|p|]; cbn [shr_1 shr_m].
  - rewrite Pos2Z.inj_xI.
    apply (Z.div_unique_pos _ _ _ 1); lia.
  - rewrite Pos2Z.inj_xO.
    apply (Z.div_unique_pos _ _ _ 0); lia.
  - reflexivity.
Qed.

Lemma shr_iter_m (p : positive) : forall mrs : shr_record,
  0 <= shr_m mrs ->
  shr_m (iter_pos shr_1 p mrs) = shr_m mrs / 2 ^ Zpos p.
Proof.
  assert (Hnn : forall mrs, 0 <= shr_m mrs -> 0 <= shr_m (shr_1 mrs)).
  { intros mrs H. rewrite shr_1_m by exact H. apply Z.div_pos; lia. }
  induction p as [p IH|p IH|]; intros mrs Hm; cbn [iter_pos].
  - assert (H1 := Hnn mrs Hm).
    assert (H2 : 0 <= shr_m (iter_pos shr_1 p (shr_1 mrs))).
    { rewrite IH by exact H1. apply Z.div_pos; [exact H1|]. apply Z.pow_pos_nonneg; lia. }
    rewrite IH by exact H2. rewrite IH by exact H1. rewrite shr_1_m by exact Hm.
    rewrite !Z.div_div
      by first [apply Z.pow_pos_nonneg; lia | apply Z.pow_nonzero; lia | lia].
    f_equal. rewrite Pos2Z.inj_xI.
    rewrite <- Z.pow_add_r, <- Z.pow_succ_r by lia. f_equal. lia.
  - assert (H2 : 0 <= shr_m (iter_pos shr_1 p mrs)).
    { rewrite IH by exact Hm. apply Z.div_pos; [exact Hm|]. apply Z.pow_pos_nonneg; lia. }
    rewrite IH by exact H2. rewrite IH by exact Hm.
    rewrite Z.div_div
      by first [apply Z.pow_pos_nonneg; lia | apply Z.pow_nonzero; lia | lia].
    f_equal. rewrite Pos2Z.inj_xO.
    rewrite <- Z.pow_add_r by lia. f_equal. lia.
  - rewrite shr_1_m by exact Hm. reflexivity.
Qed.

(** The mantissa and exponent after [shr]. *)
Lemma shr_m_e (mrs : shr_record) (e n : Z) :
  0 <= shr_m mrs ->
  shr_m (fst (shr mrs e n)) = (if 0 <? n then shr_m mrs / 2 ^ n else shr_m mrs) /\
  snd (shr mrs e n) = (if 0 <? n then e + n else e).
Proof.
  intros Hm. destruct n as [|p|p]; cbn [shr fst snd Z.ltb Z.compare]; auto.
  split; [now apply shr_iter_m | reflexivity].
Qed.

Lemma round_nearest_even_bounds (m : Z) (l : location) :
  m <= round_nearest_even m l <= m + 1.
Proof.
  destruct l as [|[| |]]; cbn [round_nearest_even]; try lia.
  destruct (Z.even m); lia.
Qed.

Lemma shr_record_of_loc_m (m : Z) (l : location) : shr_m (shr_record_of_loc m l) = m.
Proof. destruct l as [|[| |]]; reflexivity. Qed.

Lemma digits2_pos_size (p : positive) : digits2_pos p = Pos.size p.
Proof. induction p; cbn; congruence. Qed.

Lemma digits2_lower (p : positive) : 2 ^ (Zpos (digits2_pos p) - 1) <= Zpos p.
Proof.
  rewrite digits2_pos_size.
  pose proof (Pos.size_le p) as H.
  assert (H' : 2 ^ Zpos (Pos.size p) <= 2 * Zpos p).
  { change (2 * Zpos p) with (Zpos p~0). rewrite <- Pos2Z.inj_pow. now apply Pos2Z.pos_le_pos. }
  replace (Zpos (Pos.size p)) with (Z.succ (Zpos (Pos.size p) - 1)) in H' by lia.
  rewrite Z.pow_succ_r in H' by lia. lia.
Qed.

Lemma digits2_upper (p : positive) : Zpos p < 2 ^ Zpos (digits2_pos p).
Proof.
  rewrite digits2_pos_size. pose proof (Pos.size_gt p) as H.
  rewrite <- Pos2Z.inj_pow. now apply Pos2Z.pos_lt_pos.
Qed.

Lemma Zdigits2_lower (m : Z) : 0 < m -> 2 ^ (Zdigits2 m - 1) <= m.
Proof.
  destruct m as [|p|p]; intros H; try lia. apply digits2_lower.
Qed.

Lemma fexp_nonpos (k bound m : Z) :
  0 <= bound -> m < 2 ^ 53 * 2 ^ bound -> 2 ^ (k - 1) <= m ->
  SpecFloat.fexp 53 1024 (k - bound) <= 0.
Proof.
  intros Hb Hlt Hk. unfold SpecFloat.fexp, SpecFloat.emin.
  apply Z.max_lub; [|lia].
  destruct (Z_le_gt_dec (k - bound - 53) 0) as [H|H]; [exact H|exfalso].
  assert (H1 : 2 ^ (53 + bound) <= 2 ^ (k - 1)) by (apply Z.pow_le_mono_r; lia).
  rewrite Z.pow_add_r in H1 by lia. lia.
Qed.

Lemma shr_fexp_spec (m e : Z) (l : location) :
  0 <= m ->
  let n := SpecFloat.fexp 53 1024 (Zdigits2 m + e) - e in
  shr_m (fst (shr_fexp 53 1024 m e l)) = (if 0 <? n then m / 2 ^ n else m) /\
  snd (shr_fexp 53 1024 m e l) = (if 0 <? n then e + n else e).
Proof.
  intros Hm n. unfold shr_fexp. fold n.
  pose proof (shr_m_e (shr_record_of_loc m l) e n) as H.
  rewrite shr_record_of_loc_m in H. now apply H.
Qed.

(** The integral part of a rounded product stays within an integer bound
    that the exact product is below. *)
Lemma round_aux_magnitude (sg : bool) (P : positive) (E K : Z) :
  E <= 0 -> 0 < K < 2 ^ 53 -> Zpos P < K * 2 ^ (- E) ->
  let t := Number.truncate (binary_round_aux 53 1024 sg (Zpos P) E loc_Exact) in
  Z.abs t <= K /\ (if sg then t <= 0 else 0 <= t).
Proof.
  intros HE HK HP. unfold binary_round_aux.
  pose proof (shr_fexp_spec (Zpos P) E loc_Exact ltac:(lia)) as [Hm1 He1].
  destruct (shr_fexp 53 1024 (Zpos P) E loc_Exact) as [mrs1 e1].
  cbn [fst snd] in Hm1, He1.
  set (n1 := SpecFloat.fexp 53 1024 (Zdigits2 (Zpos P) + E) - E) in *.
  set (m1 := shr_m mrs1) in *.
  pose proof (round_nearest_even_bounds m1 (loc_of_shr_record mrs1)) as Hm2.
  set (m2 := round_nearest_even m1 (loc_of_shr_record mrs1)) in *.
  (* A: the first exponent is not positive *)
  assert (HA : e1 <= 0).
  { rewrite He1. destruct (0 <? n1) eqn:Hn; [|exact HE].
    unfold n1. ring_simplify (E + (SpecFloat.fexp 53 1024 (Zdigits2 (Zpos P) + E) - E)).
    replace (Zdigits2 (Zpos P) + E) with (Zdigits2 (Zpos P) - (- E)) by lia.
    apply (fexp_nonpos _ _ (Zpos P)); [lia | | apply Zdigits2_lower; lia].
    assert (0 < 2 ^ (- E)) by (apply Z.pow_pos_nonneg; lia). nia. }
  (* B: the rounded mantissa is at most K * 2^(-e1) *)
  assert (Hm1nn : 0 <= m1).
  { rewrite Hm1. destruct (0 <? n1) eqn:Hn; [|lia]. apply Z.ltb_lt in Hn.
    apply Z.div_pos; [lia|]. apply Z.pow_pos_nonneg; lia. }
  assert (HB : m2 <= K * 2 ^ (- e1)).
  { enough (m1 < K * 2 ^ (- e1)) by lia.
    rewrite Hm1, He1. destruct (0 <? n1) eqn:Hn.
    - apply Z.ltb_lt in Hn.
      apply Z.div_lt_upper_bound; [apply Z.pow_pos_nonneg; lia|].
      replace (2 ^ n1 * (K * 2 ^ (- (E + n1)))) with (K * (2 ^ n1 * 2 ^ (- (E + n1)))) by ring.
      assert (HA' : E + n1 <= 0).
      { rewrite He1 in HA. replace (0 <? n1) with true in HA; [exact HA|].
        symmetry. now apply Z.ltb_lt. }
      rewrite <- Z.pow_add_r by lia.
      replace (n1 + - (E + n1)) with (- E) by lia. exact HP.
    - exact HP. }
  (* the second shift *)
  assert (Hm2nn : 0 <= m2) by lia.
  pose proof (shr_fexp_spec m2 e1 loc_Exact Hm2nn) as [Hm3 He3].
  destruct (shr_fexp 53 1024 m2 e1 loc_Exact) as [mrs2 e2].
  cbn [fst snd] in Hm3, He3.
  set (n2 := SpecFloat.fexp 53 1024 (Zdigits2 m2 + e1) - e1) in *.
  set (m3 := shr_m mrs2) in *.
  assert (Hpow1 : 0 < 2 ^ (- e1)) by (apply Z.pow_pos_nonneg; lia).
  (* C: the final exponent is not positive *)
  assert (HC : e2 <= 0).
  { rewrite He3. destruct (0 <? n2) eqn:Hn; [|exact HA].
    unfold n2. ring_simplify (e1 + (SpecFloat.fexp 53 1024 (Zdigits2 m2 + e1) - e1)).
    destruct (Z.eq_dec m2 0) as [H0 | H0].
    - rewrite H0. cbn [Zdigits2]. unfold SpecFloat.fexp, SpecFloat.emin. lia.
    - replace (Zdigits2 m2 + e1) with (Zdigits2 m2 - (- e1)) by lia.
      apply (fexp_nonpos _ _ m2); [lia | nia | apply Zdigits2_lower; lia]. }
  (* D: the integral part *)
  assert (HD : 0 <= Z.shiftl m3 e2 <= K).
  { rewrite Z.shiftl_div_pow2 by exact HC.
    assert (Hq : m3 / 2 ^ (- e2) = m2 / 2 ^ (- e1)).
    { rewrite Hm3, He3. destruct (0 <? n2) eqn:Hn; [|reflexivity].
      apply Z.ltb_lt in Hn.
      assert (He2 : e1 + n2 <= 0).
      { rewrite He3 in HC. replace (0 <? n2) with true in HC; [exact HC|].
        symmetry. now apply Z.ltb_lt. }
      rewrite Z.div_div
        by first [apply Z.pow_pos_nonneg; lia | apply Z.pow_nonzero; lia | lia].
      rewrite <- Z.pow_add_r by lia. f_equal. f_equal. lia. }
    rewrite Hq. split.
    - apply Z.div_pos; lia.
    - apply Z.div_le_upper_bound; [exact Hpow1 | lia]. }
  cbv zeta. clearbody m3.
  destruct m3 as [|m|m]; cbn [Number.truncate].
  - destruct sg; lia.
  - destruct (e2 <=? 1024 - 53); cbn [Number.truncate]; destruct sg; lia.
  - destruct sg; lia.
Qed.

Lemma valid_mantissa (s : bool) (m : positive) (e : Z) :
  valid_binary 53 1024 (S754_finite s m e) = true -> Zpos m < 2 ^ 53.
Proof.
  cbn [valid_binary]. unfold bounded, canonical_mantissa, SpecFloat.fexp, SpecFloat.emin.
  intros H. apply andb_true_iff in H as [H _]. apply Z.eqb_eq in H.
  pose proof (digits2_upper m) as Hu.
  assert (Hd : Zpos (digits2_pos m) <= 53) by lia.
  eapply Z.lt_le_trans; [exact Hu|]. apply Z.pow_le_mono_r; lia.
Qed.

Lemma not_above_one (m : positive) (e : Z) :
  Number.lt (Number.of_Z 1) (S754_finite false m e) = false ->
  e < -52 \/ (e = -52 /\ Zpos m <= 2 ^ 52).
Proof.
  change (Number.of_Z 1) with (S754_finite false 4503599627370496 (-52)).
  unfold Number.lt, SFltb. cbn [SFcompare].
  destruct (Z.compare_spec (-52) e) as [He | He | He]; intros H; try discriminate.
  - right. split; [lia|].
    destruct (Pos.compare_cont Eq 4503599627370496 m) eqn:Hc; try discriminate.
    + apply Pos.compare_eq in Hc. subst m. reflexivity.
    + apply Pos.compare_gt_iff in Hc. change (2 ^ 52) with (Zpos 4503599627370496).
      now apply Pos2Z.pos_le_pos, Pos.lt_le_incl.
  - left. lia.
Qed.

Lemma not_below_minus_one (m : positive) (e : Z) :
  Number.lt (S754_finite true m e) (Number.of_Z (-1)) = false ->
  e < -52 \/ (e = -52 /\ Zpos m <= 2 ^ 52).
Proof.
  change (Number.of_Z (-1)) with (S754_finite true 4503599627370496 (-52)).
  unfold Number.lt, SFltb. cbn [SFcompare].
  destruct (Z.compare_spec e (-52)) as [He | He | He]; intros H; try discriminate.
  - right. split; [lia|].
    destruct (Pos.compare_cont Eq m 4503599627370496) eqn:Hc; try discriminate.
    + apply Pos.compare_eq in Hc. subst m. reflexivity.
    + apply Pos.compare_lt_iff in Hc. change (2 ^ 52) with (Zpos 4503599627370496).
      now apply Pos2Z.pos_le_pos, Pos.lt_le_incl.
  - left. lia.
Qed.

(** Below one in magnitude: [m * 2^e < 1]. *)
Lemma below_one (m : positive) (e : Z) :
  Zpos m < 2 ^ 53 ->
  e < -52 \/ (e = -52 /\ Zpos m <= 2 ^ 52) ->
  Zpos m <> 2 ^ 52 \/ e <> -52 ->
  e < 0 /\ Zpos m < 2 ^ (- e).
Proof.
  intros Hv [He | [He Hm]] Hne.
  - split; [lia|]. eapply Z.lt_le_trans; [exact Hv|]. apply Z.pow_le_mono_r; lia.
  - subst e. split; [lia|]. change (- -52) with 52. lia.
Qed.

Lemma lt_zero_finite (s : bool) (m : positive) (e : Z) :
  Number.lt (S754_finite s m e) (Number.of_Z 0) = s.
Proof. destruct s; reflexivity. Qed.

(** The scaled value of a clamped sample needs no wrapping: its integral
    part is in the range of a signed 16-bit integer. *)
Lemma scaled_in_int16_range (x : float) :
  valid_binary 53 1024 x = true ->
  -32768 <= Number.truncate (scale (clamp x)) <= 32767.
Proof.
  intros Hvalid.
  assert (Hone : Number.truncate (scale (Number.of_Z 1)) = 32767)
    by (vm_compute; reflexivity).
  assert (Hminus : Number.truncate (scale (Number.of_Z (-1))) = -32768)
    by (vm_compute; reflexivity).
  destruct x as [s | s | | s m e].
  - assert (H : Number.truncate (scale (clamp (S754_zero s))) = 0)
      by (destruct s; vm_compute; reflexivity).
    rewrite H. lia.
  - destruct s.
    + change (clamp (S754_infinity true)) with (Number.of_Z (-1)). lia.
    + change (clamp (S754_infinity false)) with (Number.of_Z 1). lia.
  - assert (H : Number.truncate (scale (clamp S754_nan)) = 0)
      by (vm_compute; reflexivity).
    rewrite H. lia.
  - rewrite clamp_is_clamp_spec by reflexivity. unfold clamp_spec.
    destruct (Number.lt (Number.of_Z 1) (S754_finite s m e)) eqn:H1; [lia|].
    destruct (Number.lt (S754_finite s m e) (Number.of_Z (-1))) eqn:H2; [lia|].
    pose proof (valid_mantissa s m e Hvalid) as Hm.
    destruct s.
    + pose proof (not_below_minus_one m e H2) as Hle.
      assert (Hcase : (e = -52 /\ Zpos m = 2 ^ 52) \/ (Zpos m <> 2 ^ 52 \/ e <> -52)) by lia.
      destruct Hcase as [[He Hm52] | Hne].
      * subst e. change (2 ^ 52) with (Zpos 4503599627370496) in Hm52.
        injection Hm52 as ->.
        change (S754_finite true 4503599627370496 (-52)) with (Number.of_Z (-1)). lia.
      * destruct (below_one m e Hm Hle Hne) as [He0 Hlt].
        unfold scale. rewrite lt_zero_finite.
        change (Number.of_Z 32768) with (S754_finite false 4503599627370496 (-37)).
        unfold Number.mul, Number.prec, Number.emax. cbn [SFmul xorb].
        assert (HP : Zpos (m * 4503599627370496) < 32768 * 2 ^ (- (e + -37))).
        { rewrite Pos2Z.inj_mul.
          replace (- (e + -37)) with (37 + - e) by lia.
          rewrite Z.pow_add_r by lia.
          replace (32768 * (2 ^ 37 * 2 ^ (- e))) with (2 ^ (- e) * Zpos 4503599627370496)
            by (change (2 ^ 37) with 137438953472; ring).
          apply Z.mul_lt_mono_pos_r; [reflexivity | exact Hlt]. }
        pose proof (round_aux_magnitude true (m * 4503599627370496) (e + -37) 32768 ltac:(lia) ltac:(split; reflexivity) HP) as Hr.
        cbv zeta in Hr. lia.
    + pose proof (not_above_one m e H1) as Hle.
      assert (Hcase : (e = -52 /\ Zpos m = 2 ^ 52) \/ (Zpos m <> 2 ^ 52 \/ e <> -52)) by lia.
      destruct Hcase as [[He Hm52] | Hne].
      * subst e. change (2 ^ 52) with (Zpos 4503599627370496) in Hm52.
        injection Hm52 as ->.
        change (S754_finite false 4503599627370496 (-52)) with (Number.of_Z 1). lia.
      * destruct (below_one m e Hm Hle Hne) as [He0 Hlt].
        unfold scale. rewrite lt_zero_finite.
        change (Number.of_Z 32767) with (S754_finite false 9006924376834048 (-38)).
        unfold Number.mul, Number.prec, Number.emax. cbn [SFmul xorb].
        assert (HP : Zpos (m * 9006924376834048) < 32767 * 2 ^ (- (e + -38))).
        { rewrite Pos2Z.inj_mul.
          replace (- (e + -38)) with (38 + - e) by lia.
          rewrite Z.pow_add_r by lia.
          replace (32767 * (2 ^ 38 * 2 ^ (- e))) with (2 ^ (- e) * Zpos 9006924376834048)
            by (change (2 ^ 38) with 274877906944; ring).
          apply Z.mul_lt_mono_pos_r; [reflexivity | exact Hlt]. }
        pose proof (round_aux_magnitude false (m * 9006924376834048) (e + -38) 32767 ltac:(lia) ltac:(split; reflexivity) HP) as Hr.
        cbv zeta in Hr. lia.
Qed.

End RoundedProducts.

Lemma wrap_int16_range (z : Z) : (-32768 <= Number.wrap_int16 z < 32768)%Z.
Proof.
  unfold Number.wrap_int16.
  pose proof (Z.mod_pos_bound z 65536 eq_refl).
  destruct (Z.leb_spec 32768 (z mod 65536)); lia.
Qed.

Lemma wrap_int16_small (z : Z) :
  (-32768 <= z <= 32767)%Z -> Number.wrap_int16 z = z.
Proof.
  intros Hz. unfold Number.wrap_int16.
  destruct (Z_lt_ge_dec z 0) as [Hneg | Hpos].
  - assert (Hm : (z mod 65536 = z + 65536)%Z).
    { rewrite <- (Z.mod_add z 1 65536) by lia. apply Z.mod_small. lia. }
    rewrite Hm. destruct (Z.leb_spec 32768 (z + 65536)); lia.
  - rewrite Z.mod_small by lia. destruct (Z.leb_spec 32768 z); lia.
Qed.

(** Reading the two bytes back as a signed little-endian integer. *)
Lemma getInt16_le_split (z : Z) :
  (-32768 <= z < 32768)%Z ->
  Number.wrap_int16 (le_combine (le_split 2 z)) = z.
Proof.
  intros Hz. rewrite le_combine_split.
  change (2 ^ (Z.of_nat 2 * 8))%Z with 65536%Z.
  unfold Number.wrap_int16. rewrite Z.mod_mod by lia.
  destruct (Z.leb_spec 32768 (z mod 65536)) as [H | H].
  - destruct (Z_lt_ge_dec z 0) as [Hneg | Hpos].
    + rewrite <- (Z.mod_add z 1 65536) by lia. rewrite Z.mod_small; lia.
    + rewrite Z.mod_small in H; lia.
  - destruct (Z_lt_ge_dec z 0) as [Hneg | Hpos].
    + rewrite <- (Z.mod_add z 1 65536) in H by lia. rewrite Z.mod_small in H; lia.
    + rewrite Z.mod_small; lia.
Qed.

Lemma lt_not_nan_r (x y : float) : Number.lt x y = true -> Number.is_nan y = false.
Proof.
  unfold Number.lt, SFltb.
  destruct x as [[|]|[|]| |[|] mx ex], y as [[|]|[|]| |[|] my ey];
    cbn; intros H; try discriminate; reflexivity.
Qed.

Lemma lt_not_nan_l (x y : float) : Number.lt x y = true -> Number.is_nan x = false.
Proof.
  unfold Number.lt, SFltb.
  destruct x as [[|]|[|]| |[|] mx ex], y as [[|]|[|]| |[|] my ey];
    cbn; intros H; try discriminate; reflexivity.
Qed.

(** C8: the PCM16 conversion of a sample x, as the inner loop performs it.
    The two bytes written are the little-endian signed 16-bit integer
    ToInt16(scale(clamp x)); clamp, the source's max(-1, min(1, x)), is for
    every x that is a number the clamping to [-1, 1] (1 above 1, -1 below -1,
    x otherwise) and lands in [-1, 1]; scale multiplies a negative value by
    32768 and any other by 32767; for every binary64 value x the scaled value
    has its integral part in [-32768, 32767], so that ToInt16 only cuts the
    fraction and never wraps.  In particular -1 gives -32768, 0 gives 0,
    1 gives 32767, and every x above 1 (below -1) gives the bytes of 1
    (of -1). *)
Theorem pcm16_conversion (x : float) :
  (* what the loop writes *)
  write_block [x] (new_ArrayBuffer 2) 0 = Some (pcm16_of_sample x, 2%nat) /\
  (* a little-endian signed 16-bit integer *)
  pcm16_of_sample x = le_split 2 (Number.ToInt16 (scale (clamp x))) /\
  Number.wrap_int16 (le_combine (pcm16_of_sample x)) = Number.ToInt16 (scale (clamp x)) /\
  (* the clamp *)
  (Number.is_nan x = false ->
   clamp x = clamp_spec x /\
   Number.le (Number.of_Z (-1)) (clamp x) = true /\
   Number.le (clamp x) (Number.of_Z 1) = true) /\
  (* the scale factors *)
  scale (clamp x) =
    (if Number.lt (clamp x) (Number.of_Z 0)
     then Number.mul (clamp x) (Number.of_Z 32768)
     else Number.mul (clamp x) (Number.of_Z 32767)) /\
  (* no wrapping: the integer written is the integral part of the scaled value *)
  (valid_binary Number.prec Number.emax x = true ->
   Number.ToInt16 (scale (clamp x)) = Number.truncate (scale (clamp x)) /\
   (-32768 <= Number.truncate (scale (clamp x)) <= 32767)%Z) /\
  (* the boundary samples *)
  Number.ToInt16 (scale (clamp (Number.of_Z (-1)))) = (-32768)%Z /\
  Number.ToInt16 (scale (clamp (Number.of_Z 0))) = 0%Z /\
  Number.ToInt16 (scale (clamp (Number.of_Z 1))) = 32767%Z /\
  (* beyond the boundaries *)
  (Number.lt (Number.of_Z 1) x = true ->
   pcm16_of_sample x = pcm16_of_sample (Number.of_Z 1)) /\
  (Number.lt x (Number.of_Z (-1)) = true ->
   pcm16_of_sample x = pcm16_of_sample (Number.of_Z (-1))).
Proof.
  split.
  { pose proof (write_block_spec [x] [] 2) as H.
    rewrite app_nil_l in H.
    change (List.length (@nil byte)) with 0%nat in H.
    change (2 - 2 * List.length [x])%nat with 0%nat in H.
    change (0 + 2 * List.length [x])%nat with 2%nat in H.
    change (repeat Byte.x00 0) with (@nil byte) in H.
    change (flat_map pcm16_of_sample [x]) with (pcm16_of_sample x ++ []) in H.
    rewrite !app_nil_r in H. apply H. cbn [List.length]. lia. }
  split; [reflexivity|].
  split; [apply getInt16_le_split, wrap_int16_range|].
  split.
  { intros Hx. split; [now apply clamp_is_clamp_spec | now apply clamp_bounds]. }
  split; [reflexivity|].
  split.
  { intros Hvalid. pose proof (scaled_in_int16_range x Hvalid) as Hr.
    split; [|exact Hr]. unfold Number.ToInt16. now apply wrap_int16_small. }
  split; [vm_compute; reflexivity|].
  split; [vm_compute; reflexivity|].
  split; [vm_compute; reflexivity|].
  split.
  - intros H. unfold pcm16_of_sample.
    rewrite (clamp_is_clamp_spec x (lt_not_nan_r _ _ H)).
    unfold clamp_spec. now rewrite H.
  - intros H. unfold pcm16_of_sample.
    rewrite (clamp_is_clamp_spec x (lt_not_nan_l _ _ H)).
    unfold clamp_spec. rewrite H.
    replace (Number.lt (Number.of_Z 1) x) with false; [reflexivity|].
    symmetry.
    destruct (Number.lt (Number.of_Z 1) x) eqn:E; [|reflexivity].
    exfalso. revert H E. unfold Number.lt, SFltb.
    change (Number.of_Z 1) with (S754_finite false 4503599627370496 (-52)).
    change (Number.of_Z (-1)) with (S754_finite true 4503599627370496 (-52)).
    destruct x as [[|]|[|]| |[|] mx ex]; cbn [SFcompare]; try discriminate.
Qed.

Lemma pcm16_conversion_witness :
  pcm16_of_sample (Number.of_Z 2) = [Byte.xff; Byte.x7f] /\
  pcm16_of_sample (Number.of_Z (-3)) = [Byte.x00; Byte.x80] /\
  Number.le (clamp half) (Number.of_Z 1) = true /\
  (-32768 <= Number.truncate (scale (clamp half)) <= 32767)%Z.
Proof.
  destruct (pcm16_conversion (Number.of_Z 2))
    as (_ & _ & _ & _ & _ & _ & _ & _ & _ & Habove & _).
  destruct (pcm16_conversion (Number.of_Z (-3)))
    as (_ & _ & _ & _ & _ & _ & _ & _ & _ & _ & Hbelow).
  destruct (pcm16_conversion half) as (_ & _ & _ & Hclamp & _ & Hrange & _).
  split; [exact (Habove eq_refl)|].
  split; [exact (Hbelow eq_refl)|].
  split; [exact (proj2 (proj2 (Hclamp eq_refl)))|].
  exact (proj2 (Hrange eq_refl)).
Defined.

(** NaN, a value [clamp] lets through, is written as 0. *)
Example pcm16_of_nan : pcm16_of_sample S754_nan = [Byte.x00; Byte.x00].
Proof. reflexivity. Qed.

(** Half scale: 0.5 * 32767 = 16383.5 is cut to 16383, -0.5 * 32768 is
    -16384. *)
Example pcm16_of_halves :
  Number.ToInt16 (scale (clamp half)) = 16383%Z /\
  Number.ToInt16 (scale (clamp minus_half)) = (-16384)%Z.
Proof. split; reflexivity. Qed.

(* ===================================================================== *)
(** * Voice catalog builder: further properties *)
(* ===================================================================== *)

Lemma find_voice_by_uri (st : state) (uri : uri_ref) :
  find_voice st uri = find_by_uri (voices st) uri.
Proof. reflexivity. Qed.

(** The filter of every branch lets through only what the filter for other
    browsers lets through. *)
Lemma vendor_keep_generic (h : host) (v : SpeechSynthesisVoice) :
  vendor_keep h v = true -> generic_keep v = true.
Proof.
  unfold vendor_keep, chrome_keep, edge_keep, generic_keep.
  destruct (isChrome h); [|destruct (isEdge h)]; intros H; auto.
  - apply andb_true_iff in H. apply H.
  - apply andb_true_iff in H as [_ H].
    apply orb_true_iff in H as [H | H]; [now rewrite H|].
    apply orb_true_iff. right.
    rewrite !orb_true_iff in H.
    destruct H as [[[[H | H] | H] | H] | H];
      apply JsString_eqb_eq in H; rewrite H; reflexivity.
Qed.

Lemma generic_keep_languages (v : SpeechSynthesisVoice) :
  generic_keep v = true ->
  lang v <> js "zh-HK" /\
  (JsString.startsWith (lang v) (js "zh") = true \/
   JsString.startsWith (lang v) (js "ja") = true \/
   JsString.startsWith (lang v) (js "en") = true).
Proof.
  unfold generic_keep, zh_or_ja. intros H.
  rewrite !orb_true_iff, andb_true_iff, negb_true_iff, JsString_eqb_neq in H.
  split; [|tauto].
  intros Hhk. rewrite Hhk in H.
  destruct H as [[[_ H] | H] | H]; [now apply H | discriminate | discriminate].
Qed.

(** The catalog [populateVoiceList] stores when it gets past its guard. *)
Lemma populate_voices (h : host) (st : state) :
  voices st = [] ->
  voices (populateVoiceList h st) =
  if isChrome h then filter (chrome_keep h) (getVoices h)
  else if isEdge h then Array_sort compare_voices (filter (edge_keep h) (getVoices h))
  else filter generic_keep (getVoices h).
Proof.
  intros Hv. unfold populateVoiceList. rewrite Hv. cbn.
  destruct (getVoices h) as [|g gs]; cbn.
  - rewrite Hv. destruct (isChrome h); [|destruct (isEdge h)]; reflexivity.
  - destruct (isChrome h); [|destruct (isEdge h)]; reflexivity.
Qed.

(** X1: starting from an empty catalog, the catalog [populateVoiceList]
    builds holds exactly the host voices that the filter of the vendor
    branch keeps.  Whatever the branch, no voice of it has the language
    zh-HK and each has a language starting with zh, ja or en.  Outside Edge
    the catalog is the filtered host list in the host's order; on every host
    it is a rearrangement of that list. *)
Theorem populate_catalog_members (h : host) (st : state) :
  voices st = [] ->
  let catalog := voices (populateVoiceList h st) in
  (forall v, In v catalog <-> In v (getVoices h) /\ vendor_keep h v = true) /\
  (forall v, In v catalog ->
     lang v <> js "zh-HK" /\
     (JsString.startsWith (lang v) (js "zh") = true \/
      JsString.startsWith (lang v) (js "ja") = true \/
      JsString.startsWith (lang v) (js "en") = true)) /\
  (isEdge h = false -> catalog = filter (vendor_keep h) (getVoices h)) /\
  Permutation catalog (filter (vendor_keep h) (getVoices h)).
Proof.
  intros Hv catalog.
  assert (Hperm : Permutation catalog (filter (vendor_keep h) (getVoices h))).
  { unfold catalog, vendor_keep. rewrite (populate_voices h st Hv).
    destruct (isChrome h); [reflexivity|]. destruct (isEdge h); [|reflexivity].
    symmetry. apply (Array_sort_perm rank). }
  assert (Hmem : forall v, In v catalog <-> In v (getVoices h) /\ vendor_keep h v = true).
  { intros v. rewrite <- filter_In. split; apply Permutation_in; [|symmetry]; exact Hperm. }
  split; [exact Hmem|]. split; [|split; [|exact Hperm]].
  - intros v Hin. apply Hmem in Hin as [_ Hk].
    apply generic_keep_languages. now apply (vendor_keep_generic h).
  - intros He. unfold catalog, vendor_keep. rewrite (populate_voices h st Hv), He.
    destruct (isChrome h); reflexivity.
Qed.

Lemma populate_catalog_members_witness :
  In voice_emma (voices (populateVoiceList edge_host initial_state)) <->
  In voice_emma (getVoices edge_host) /\ vendor_keep edge_host voice_emma = true.
Proof.
  exact (proj1 (populate_catalog_members edge_host initial_state eq_refl) voice_emma).
Defined.

(** ** Default selections *)

Lemma find_by_uri_of_member (vs : list SpeechSynthesisVoice) (v : SpeechSynthesisVoice) :
  In v vs ->
  exists v', find_by_uri vs (UriString (voiceURI v)) = Some v' /\
             voiceURI v' = voiceURI v.
Proof.
  intros Hin. cbn [find_by_uri].
  destruct (find (fun v0 => JsString.eqb (voiceURI v0) (voiceURI v)) vs) as [v'|] eqn:Hf.
  - exists v'. split; [reflexivity|].
    apply find_some in Hf as [_ Hf]. now apply JsString_eqb_eq in Hf.
  - exfalso. apply (find_none _ _ Hf) in Hin.
    apply JsString_eqb_neq in Hin. now apply Hin.
Qed.

(** With distinct URIs the lookup gives back the voice itself. *)
Lemma find_by_uri_unique (vs : list SpeechSynthesisVoice) (v : SpeechSynthesisVoice) :
  NoDup (map voiceURI vs) -> In v vs ->
  find_by_uri vs (UriString (voiceURI v)) = Some v.
Proof.
  induction vs as [|w vs IH]; intros Hnd Hin; [destruct Hin|].
  cbn [find_by_uri find]. cbn [map] in Hnd. inversion Hnd as [|? ? Hnotin Hnd']; subst.
  destruct (JsString.eqb (voiceURI w) (voiceURI v)) eqn:E.
  - apply JsString_eqb_eq in E. destruct Hin as [-> | Hin]; [reflexivity|].
    exfalso. apply Hnotin. rewrite E. now apply in_map.
  - destruct Hin as [-> | Hin].
    + apply JsString_eqb_neq in E. now contradiction E.
    + now apply IH.
Qed.

Lemma find_uri_cases (p : SpeechSynthesisVoice -> bool) (vs : list SpeechSynthesisVoice) :
  find_uri p vs = UriUndefined \/ uri_of vs (find_uri p vs).
Proof.
  unfold find_uri. destruct (find p vs) as [v|] eqn:Hf; [right | now left].
  exists v. split; [|reflexivity]. now apply find_some in Hf.
Qed.

Lemma js_or_uri_of (vs : list SpeechSynthesisVoice) (a b : uri_ref) :
  a = UriUndefined \/ uri_of vs a -> uri_of vs b -> uri_of vs (js_or a b).
Proof.
  intros [-> | Ha] Hb; [exact Hb|].
  unfold js_or. destruct a as [| |[|c s]]; assumption.
Qed.

Lemma first_uri_of (vs : list SpeechSynthesisVoice) : vs <> [] -> uri_of vs (first_uri vs).
Proof.
  destruct vs as [|v vs]; [congruence|]. intros _. exists v. split; [now left | reflexivity].
Qed.

Lemma js_or_cases (a b : uri_ref) : js_or a b = a \/ js_or a b = b.
Proof. destruct a as [| |[|c s]]; cbn; auto. Qed.

Lemma default_chain_uri_of (vs : list SpeechSynthesisVoice)
  (p q : SpeechSynthesisVoice -> bool) :
  vs <> [] -> uri_of vs (js_or (js_or (find_uri p vs) (find_uri q vs)) (first_uri vs)).
Proof.
  intros Hne. apply js_or_uri_of; [|now apply first_uri_of].
  destruct (js_or_cases (find_uri p vs) (find_uri q vs)) as [-> | ->];
    apply find_uri_cases.
Qed.

Lemma populate_selections (h : host) (st : state) :
  voices st = [] -> getVoices h <> [] ->
  let st' := populateVoiceList h st in
  speaker1VoiceURI st' = default_speaker1 h (voices st') /\
  speaker2VoiceURI st' =
    (if isEdge h then default_speaker2_yaoyao h (voices st')
     else default_speaker2_tw (voices st')).
Proof.
  intros Hv Hg. unfold populateVoiceList, isChrome. rewrite Hv.
  apply nonempty_length in Hg. rewrite Hg. cbn [Nat.ltb Nat.leb List.length].
  destruct (isEdge h); cbn [negb andb]; [split; reflexivity|].
  destruct (JsString.includes (toLowerCase h (userAgent h)) (js "chrome"));
    split; reflexivity.
Qed.

(** X2: after a run of [populateVoiceList] that starts from an empty
    catalog and leaves a non-empty one, each of the two speaker selections
    is the URI of a voice of the catalog: looking it up finds a voice. *)
Theorem populate_selections_resolve (h : host) (st : state) :
  voices st = [] ->
  let st' := populateVoiceList h st in
  voices st' <> [] ->
  (exists v, find_voice st' (speaker1VoiceURI st') = Some v /\ In v (voices st')) /\
  (exists v, find_voice st' (speaker2VoiceURI st') = Some v /\ In v (voices st')).
Proof.
  intros Hv st' Hne.
  assert (Hg : getVoices h <> []).
  { intros Hg. apply Hne. unfold st', populateVoiceList. rewrite Hv, Hg. exact Hv. }
  destruct (populate_selections h st Hv Hg) as [H1 H2]. fold st' in H1, H2.
  assert (Hres : forall u, uri_of (voices st') u ->
                   exists v, find_voice st' u = Some v /\ In v (voices st')).
  { intros u (w & Hw & ->). rewrite find_voice_by_uri.
    destruct (find_by_uri_of_member _ _ Hw) as (v & Hf & _).
    exists v. split; [exact Hf|]. cbn [find_by_uri] in Hf. now apply find_some in Hf. }
  split; apply Hres.
  - rewrite H1. now apply default_chain_uri_of.
  - rewrite H2. destruct (isEdge h); now apply default_chain_uri_of.
Qed.

Lemma populate_selections_resolve_witness :
  (exists v, find_voice (populateVoiceList edge_host initial_state)
               (speaker1VoiceURI (populateVoiceList edge_host initial_state)) = Some v /\
             In v (voices (populateVoiceList edge_host initial_state))) /\
  (exists v, find_voice (populateVoiceList edge_host initial_state)
               (speaker2VoiceURI (populateVoiceList edge_host initial_state)) = Some v /\
             In v (voices (populateVoiceList edge_host initial_state))).
Proof.
  apply (populate_selections_resolve edge_host initial_state eq_refl).
  vm_compute. discriminate.
Defined.

Lemma js_or_truthy (s : jsstring) (b : uri_ref) : s <> [] -> js_or (UriString s) b = UriString s.
Proof. destruct s; [congruence | reflexivity]. Qed.

Lemma default_chain_voice (vs : list SpeechSynthesisVoice)
  (p q : SpeechSynthesisVoice -> bool) :
  NoDup (map voiceURI vs) -> Forall (fun v => voiceURI v <> []) vs ->
  find_by_uri vs (js_or (js_or (find_uri p vs) (find_uri q vs)) (first_uri vs)) =
  first_some [find p vs; find q vs; hd_error vs].
Proof.
  intros Hnd Hne. rewrite Forall_forall in Hne.
  assert (Hfound : forall r v b, find r vs = Some v ->
            js_or (find_uri r vs) b = UriString (voiceURI v) /\
            find_by_uri vs (UriString (voiceURI v)) = Some v).
  { intros r v b Hf. unfold find_uri. rewrite Hf.
    apply find_some in Hf as [Hin _].
    split; [apply js_or_truthy; now apply Hne | now apply find_by_uri_unique]. }
  assert (Hmissing : forall r b, find r vs = None -> js_or (find_uri r vs) b = b).
  { intros r b Hf. unfold find_uri. now rewrite Hf. }
  cbn [first_some].
  destruct (find p vs) as [v|] eqn:Hp.
  - destruct (Hfound p v (find_uri q vs) Hp) as [-> Hv].
    rewrite js_or_truthy; [exact Hv|]. apply Hne. now apply find_some in Hp.
  - rewrite (Hmissing p _ Hp).
    destruct (find q vs) as [v|] eqn:Hq.
    + destruct (Hfound q v (first_uri vs) Hq) as [-> Hv]. exact Hv.
    + rewrite (Hmissing q _ Hq).
      destruct vs as [|v vs]; [reflexivity|].
      cbn [first_uri hd_error]. apply find_by_uri_unique; [exact Hnd | now left].
Qed.

(** X3: the default voices.  When the voices of the built catalog have
    distinct, non-empty URIs, the voice selected for speaker 1 is the first
    voice whose lower-cased name contains emma, failing that the first voice
    with a language starting with en, failing that the first voice of the
    catalog.  For speaker 2 it is, on Edge, the first voice whose name
    contains yaoyao and, elsewhere, the first voice of language zh-TW;
    failing that the first voice with a language starting with zh, failing
    that the first voice of the catalog. *)
Theorem populate_default_voices (h : host) (st : state) :
  voices st = [] ->
  let st' := populateVoiceList h st in
  let vs := voices st' in
  NoDup (map voiceURI vs) -> Forall (fun v => voiceURI v <> []) vs ->
  find_voice st' (speaker1VoiceURI st') =
    first_some [find (name_has h (js "emma")) vs; find (lang_starts (js "en")) vs;
                hd_error vs] /\
  find_voice st' (speaker2VoiceURI st') =
    first_some [if isEdge h then find (name_has h (js "yaoyao")) vs
                else find (lang_is (js "zh-TW")) vs;
                find (lang_starts (js "zh")) vs; hd_error vs].
Proof.
  intros Hv st' vs Hnd Hne.
  destruct (list_nil_dec (getVoices h)) as [Hg | Hg].
  - assert (Hvs : vs = []).
    { unfold vs, st', populateVoiceList. rewrite Hv, Hg. exact Hv. }
    rewrite !find_voice_by_uri. fold vs. rewrite Hvs.
    split; [destruct (speaker1VoiceURI st') | destruct (speaker2VoiceURI st')];
      try reflexivity; now destruct (isEdge h).
  - destruct (populate_selections h st Hv Hg) as [H1 H2].
    fold st' in H1, H2. fold vs in H1, H2.
    rewrite !find_voice_by_uri. fold vs. rewrite H1, H2. split.
    + now apply default_chain_voice.
    + destruct (isEdge h); now apply default_chain_voice.
Qed.

Lemma populate_default_voices_witness :
  find_voice (populateVoiceList edge_host initial_state)
    (speaker1VoiceURI (populateVoiceList edge_host initial_state)) = Some voice_emma /\
  find_voice (populateVoiceList edge_host initial_state)
    (speaker2VoiceURI (populateVoiceList edge_host initial_state)) = Some voice_xiaoxiao.
Proof.
  apply (populate_default_voices edge_host initial_state eq_refl).
  - vm_compute. repeat constructor; cbn; intuition discriminate.
  - vm_compute. repeat constructor; discriminate.
Defined.

(** ** The error status *)

(** X4: after [populateVoiceList] the status is the unsupported-browser
    message exactly when it already was, or the function ran with an empty
    catalog against an empty host list.  The function writes no other
    message, and changes neither the text nor the line indicator. *)
Theorem populate_error_status (h : host) (st : state) :
  let st' := populateVoiceList h st in
  (errorMessage st' = MsgUnsupported <->
   errorMessage st = MsgUnsupported \/ (voices st = [] /\ getVoices h = [])) /\
  (errorMessage st' = errorMessage st \/ errorMessage st' = MsgUnsupported) /\
  text st' = text st /\
  currentLineIndex st' = currentLineIndex st.
Proof.
  intros st'. unfold st', populateVoiceList.
  destruct (voices st) as [|v vs] eqn:Hv; cbn [List.length Nat.ltb Nat.leb].
  2:{ repeat split; auto. intros [H | [H _]]; [exact H | discriminate]. }
  destruct (getVoices h) as [|g gs] eqn:Hg; cbn [List.length Nat.ltb Nat.leb].
  { cbn. repeat split; auto. }
  assert (Hne : g :: gs <> []) by discriminate.
  destruct (isChrome h); [|destruct (isEdge h)]; cbn;
    (repeat split; auto; intros [H | [_ H]]; [exact H | discriminate]).
Qed.

(* ===================================================================== *)
(** * Lifecycle hook and watchers: properties *)
(* ===================================================================== *)

(** With a non-empty host list [populateVoiceList] writes no message. *)
Lemma populate_message (h : host) (st : state) :
  getVoices h <> [] -> errorMessage (populateVoiceList h st) = errorMessage st.
Proof.
  intros Hg. unfold populateVoiceList.
  destruct (voices st) as [|v vs]; cbn [List.length Nat.ltb Nat.leb]; [|reflexivity].
  destruct (getVoices h) as [|g gs]; [now contradiction Hg|].
  cbn [List.length Nat.ltb Nat.leb].
  destruct (isChrome h); [|destruct (isEdge h)]; reflexivity.
Qed.

(** X5: the [onMounted] hook never changes the status message.  It
    registers [populateVoiceList] as the voiceschanged handler exactly when
    the host list is empty at that moment, and then leaves the state as it
    was; with a non-empty host list the state is the one
    [populateVoiceList] builds. *)
Theorem onMounted_reports_no_error (h : host) (st : state) :
  let mounted := onMounted h st in
  errorMessage (fst mounted) = errorMessage st /\
  (snd mounted = true <-> getVoices h = []) /\
  (getVoices h = [] -> fst mounted = st) /\
  (getVoices h <> [] -> fst mounted = populateVoiceList h st).
Proof.
  unfold onMounted.
  destruct (getVoices h) as [|g gs] eqn:Hg; cbn [List.length Nat.eqb fst snd].
  - repeat split; auto. congruence.
  - split; [|split; [|split]]; auto; try discriminate.
    + apply populate_message. rewrite Hg. discriminate.
    + split; intros H; discriminate.
Qed.

(** X6: when the host list is empty at mount time, the voiceschanged event
    runs [populateVoiceList] on the state of mount time; if the list has
    arrived by then, the state is the one a mount with that list would have
    built on the spot. *)
Theorem deferred_population (h0 h : host) (st : state) :
  getVoices h0 = [] ->
  voiceschanged h (onMounted h0 st) = populateVoiceList h st /\
  (getVoices h <> [] -> voiceschanged h (onMounted h0 st) = fst (onMounted h st)).
Proof.
  intros H0. unfold voiceschanged, onMounted. rewrite H0. cbn [List.length Nat.eqb fst snd].
  split; [reflexivity|]. intros Hg.
  destruct (getVoices h) as [|g gs]; [now contradiction Hg | reflexivity].
Qed.

Lemma deferred_population_witness :
  voiceschanged edge_host (onMounted loading_host initial_state) =
  fst (onMounted edge_host initial_state).
Proof.
  apply (deferred_population loading_host edge_host initial_state eq_refl).
  discriminate.
Defined.

(** ** The catalog watcher *)

Lemma watch_voices_frame (newVoices : list SpeechSynthesisVoice) (st : state) :
  let st' := watch_voices newVoices st in
  voices st' = voices st /\ text st' = text st /\
  errorMessage st' = errorMessage st /\ currentLineIndex st' = currentLineIndex st.
Proof.
  unfold watch_voices. destruct newVoices as [|first others]; [now repeat split|].
  cbv zeta.
  destruct (find_by_uri (first :: others) (speaker1VoiceURI st));
    match goal with
    | |- context [find_by_uri ?l (speaker2VoiceURI ?s)] =>
        destruct (find_by_uri l (speaker2VoiceURI s))
    end; now repeat split.
Qed.

(** When both selections resolve the watcher changes nothing. *)
Lemma watch_voices_resolved (newVoices : list SpeechSynthesisVoice) (st : state) :
  find_by_uri newVoices (speaker1VoiceURI st) <> None ->
  find_by_uri newVoices (speaker2VoiceURI st) <> None ->
  watch_voices newVoices st = st.
Proof.
  intros H1 H2. unfold watch_voices. destruct newVoices as [|first others]; [reflexivity|].
  cbv zeta.
  destruct (find_by_uri (first :: others) (speaker1VoiceURI st)); [|now contradiction H1].
  destruct (find_by_uri (first :: others) (speaker2VoiceURI st)); [|now contradiction H2].
  reflexivity.
Qed.

Lemma find_by_uri_head (first : SpeechSynthesisVoice) (others : list SpeechSynthesisVoice) :
  find_by_uri (first :: others) (UriString (voiceURI first)) = Some first.
Proof.
  cbn [find_by_uri find].
  replace (JsString.eqb (voiceURI first) (voiceURI first)) with true; [reflexivity|].
  symmetry. now apply JsString_eqb_eq.
Qed.

(** What the watcher does to each selection. *)
Lemma watch_voices_cases (newVoices : list SpeechSynthesisVoice) (st : state) :
  newVoices <> [] ->
  let st' := watch_voices newVoices st in
  find_by_uri newVoices (speaker1VoiceURI st') <> None /\
  find_by_uri newVoices (speaker2VoiceURI st') <> None /\
  (find_by_uri newVoices (speaker1VoiceURI st) <> None ->
   speaker1VoiceURI st' = speaker1VoiceURI st) /\
  (find_by_uri newVoices (speaker2VoiceURI st) <> None ->
   speaker2VoiceURI st' = speaker2VoiceURI st) /\
  (find_by_uri newVoices (speaker1VoiceURI st) = None ->
   speaker1VoiceURI st' = first_uri newVoices) /\
  (find_by_uri newVoices (speaker2VoiceURI st) = None ->
   speaker2VoiceURI st' = first_uri (match newVoices with
                                     | _ :: second :: rest => second :: rest
                                     | _ => newVoices
                                     end)).
Proof.
  intros Hne. destruct newVoices as [|first others]; [now contradiction Hne|].
  unfold watch_voices. cbv zeta.
  assert (Hsecond :
            find_by_uri (first :: others)
              (match others with
               | second :: _ => UriString (voiceURI second)
               | [] => UriString (voiceURI first)
               end) <> None).
  { destruct others as [|second rest]; [now rewrite find_by_uri_head|].
    destruct (find_by_uri_of_member (first :: second :: rest) second) as (v & Hv & _);
      [right; now left|]. now rewrite Hv. }
  destruct (find_by_uri (first :: others) (speaker1VoiceURI st)) as [v1|] eqn:E1;
    cbn [speaker2VoiceURI set_speaker1VoiceURI];
    destruct (find_by_uri (first :: others) (speaker2VoiceURI st)) as [v2|] eqn:E2;
    cbn [speaker1VoiceURI speaker2VoiceURI set_speaker1VoiceURI set_speaker2VoiceURI first_uri];
    rewrite ?E1, ?E2, ?find_by_uri_head;
    repeat split; try congruence; try discriminate; auto;
    try (intros _; destruct others; reflexivity).
Qed.

(** X7: the [voices] watcher, called on a non-empty catalog, leaves both
    speaker selections naming a voice of the catalog.  A selection that
    named one already is kept; the catalog, the text, the status message and
    the line indicator are not touched. *)
Theorem watch_voices_restores (st : state) :
  voices st <> [] ->
  let st' := watch_voices (voices st) st in
  (exists v, find_voice st' (speaker1VoiceURI st') = Some v) /\
  (exists v, find_voice st' (speaker2VoiceURI st') = Some v) /\
  (find_voice st (speaker1VoiceURI st) <> None ->
   speaker1VoiceURI st' = speaker1VoiceURI st) /\
  (find_voice st (speaker2VoiceURI st) <> None ->
   speaker2VoiceURI st' = speaker2VoiceURI st) /\
  voices st' = voices st /\ text st' = text st /\
  errorMessage st' = errorMessage st /\ currentLineIndex st' = currentLineIndex st.
Proof.
  intros Hne st'.
  destruct (watch_voices_cases (voices st) st Hne) as (H1 & H2 & K1 & K2 & _).
  destruct (watch_voices_frame (voices st) st) as (Hv & Ht & He & Hi).
  fold st' in H1, H2, K1, K2, Hv, Ht, He, Hi.
  rewrite !find_voice_by_uri, Hv.
  assert (Hsome : forall (o : option SpeechSynthesisVoice), o <> None -> exists v, o = Some v).
  { intros [v|] H; [now exists v | now contradiction H]. }
  repeat split; auto.
Qed.

Lemma watch_voices_restores_witness :
  exists v, find_voice (watch_voices [voice_emma; voice_xiaoxiao] (reader_state []))
              (speaker1VoiceURI (watch_voices [voice_emma; voice_xiaoxiao] (reader_state [])))
            = Some v.
Proof.
  refine (proj1 (watch_voices_restores (reader_state []) _)).
  discriminate.
Defined.

(** X8: the [voices] watcher is idempotent: a second call with the same
    catalog changes nothing. *)
Theorem watch_voices_idempotent (newVoices : list SpeechSynthesisVoice) (st : state) :
  watch_voices newVoices (watch_voices newVoices st) = watch_voices newVoices st.
Proof.
  destruct (list_nil_dec newVoices) as [-> | Hne]; [reflexivity|].
  destruct (watch_voices_cases newVoices st Hne) as (H1 & H2 & _).
  now apply watch_voices_resolved.
Qed.

(** X9: the selections [populateVoiceList] makes from an empty catalog are
    never overridden by the [voices] watcher its assignment triggers: the
    watcher leaves that state as it is. *)
Theorem populate_then_watch (h : host) (st : state) :
  voices st = [] ->
  let st' := populateVoiceList h st in
  watch_voices (voices st') st' = st'.
Proof.
  intros Hv st'.
  destruct (list_nil_dec (voices st')) as [Hnil | Hne]; [now rewrite Hnil|].
  assert (Hg : getVoices h <> []).
  { intros Hg. apply Hne. unfold st', populateVoiceList. rewrite Hv, Hg. exact Hv. }
  destruct (populate_selections h st Hv Hg) as [H1 H2]. fold st' in H1, H2.
  assert (Hres : forall u, uri_of (voices st') u -> find_by_uri (voices st') u <> None).
  { intros u (w & Hw & ->).
    destruct (find_by_uri_of_member _ _ Hw) as (v & Hf & _). now rewrite Hf. }
  apply watch_voices_resolved; apply Hres.
  - rewrite H1. now apply default_chain_uri_of.
  - rewrite H2. destruct (isEdge h); now apply default_chain_uri_of.
Qed.

Lemma populate_then_watch_witness :
  watch_voices (voices (populateVoiceList edge_host initial_state))
               (populateVoiceList edge_host initial_state) =
  populateVoiceList edge_host initial_state.
Proof.
  exact (populate_then_watch edge_host initial_state eq_refl).
Defined.

(** ** The language watchers *)

(** The voice both language watchers pick for [newLang]. *)
Lemma lang_choice (h : host) (st : state) (newLang : jsstring)
  (first : SpeechSynthesisVoice) (rest : list SpeechSynthesisVoice) :
  filteredVoicesByLang st newLang = first :: rest ->
  exists v,
    (if JsString.eqb newLang (js "en") then
       match find (fun v => JsString.includes (toLowerCase h (name v)) (js "emma"))
                  (first :: rest) with
       | Some emmaVoice => emmaVoice
       | None => first
       end
     else first) = v /\
    In v (voices st) /\
    JsString.startsWith (lang v) newLang = true /\
    (newLang = js "en" ->
     (exists w, In w (voices st) /\ JsString.startsWith (lang w) newLang = true /\
                name_has h (js "emma") w = true) ->
     name_has h (js "emma") v = true).
Proof.
  intros Hf.
  assert (Hin : forall v, In v (first :: rest) <->
                  In v (voices st) /\ JsString.startsWith (lang v) newLang = true).
  { intros v. rewrite <- Hf. unfold filteredVoicesByLang. apply filter_In. }
  destruct (JsString.eqb newLang (js "en")) eqn:Een.
  - destruct (find (fun v => JsString.includes (toLowerCase h (name v)) (js "emma"))
                   (first :: rest)) as [emmaVoice|] eqn:Hfind.
    + exists emmaVoice. apply find_some in Hfind as [Hm Hemma].
      apply Hin in Hm as [Hm Hl]. repeat split; auto.
    + exists first. destruct (proj1 (Hin first) (or_introl eq_refl)) as [Hm Hl].
      repeat split; auto. intros _ (w & Hw & Hwl & Hwe). exfalso.
      assert (Hwin : In w (first :: rest)) by (apply Hin; now split).
      apply (find_none _ _ Hfind) in Hwin. unfold name_has in Hwe. congruence.
  - exists first. destruct (proj1 (Hin first) (or_introl eq_refl)) as [Hm Hl].
    repeat split; auto. intros Hen. apply JsString_eqb_neq in Een. now contradiction Een.
Qed.

(** X10: the language watchers.  When the catalog, with distinct URIs,
    holds a voice whose language starts with the new language, the watcher
    of speaker 1 (of speaker 2) makes the selection of that speaker a
    catalog voice whose language starts with the new language; for the
    language en that voice has emma in its lower-cased name whenever some
    catalog voice of the language has.  The other speaker's selection and
    the catalog are not touched. *)
Theorem watch_speakerLang_selects (h : host) (newLang : jsstring) (st : state) :
  filteredVoicesByLang st newLang <> [] ->
  NoDup (map voiceURI (voices st)) ->
  let chosen (v : SpeechSynthesisVoice) : Prop :=
    In v (voices st) /\
    JsString.startsWith (lang v) newLang = true /\
    (newLang = js "en" ->
     (exists w, In w (voices st) /\ JsString.startsWith (lang w) newLang = true /\
                name_has h (js "emma") w = true) ->
     name_has h (js "emma") v = true) in
  (let st' := watch_speaker1Lang h newLang st in
   (exists v, find_voice st' (speaker1VoiceURI st') = Some v /\ chosen v) /\
   speaker2VoiceURI st' = speaker2VoiceURI st /\ voices st' = voices st) /\
  (let st' := watch_speaker2Lang h newLang st in
   (exists v, find_voice st' (speaker2VoiceURI st') = Some v /\ chosen v) /\
   speaker1VoiceURI st' = speaker1VoiceURI st /\ voices st' = voices st).
Proof.
  intros Hne Hnd chosen.
  destruct (filteredVoicesByLang st newLang) as [|first rest] eqn:Hf;
    [now contradiction Hne|].
  destruct (lang_choice h st newLang first rest Hf) as (v & Hv & Hin & Hl & He).
  assert (Hfind : find_by_uri (voices st) (UriString (voiceURI v)) = Some v)
    by now apply find_by_uri_unique.
  split.
  - assert (Hst : watch_speaker1Lang h newLang st =
                  set_speaker1VoiceURI (UriString (voiceURI v)) st).
    { unfold watch_speaker1Lang. cbv zeta. rewrite Hf, <- Hv.
      destruct (JsString.eqb newLang (js "en")); [|reflexivity].
      destruct (find _ (first :: rest)); reflexivity. }
    cbv zeta. rewrite Hst. cbn. repeat split; auto.
    exists v. split; [exact Hfind | now repeat split].
  - assert (Hst : watch_speaker2Lang h newLang st =
                  set_speaker2VoiceURI (UriString (voiceURI v)) st).
    { unfold watch_speaker2Lang. cbv zeta. rewrite Hf, <- Hv.
      destruct (JsString.eqb newLang (js "en")); [|reflexivity].
      destruct (find _ (first :: rest)); reflexivity. }
    cbv zeta. rewrite Hst. cbn. repeat split; auto.
    exists v. split; [exact Hfind | now repeat split].
Qed.

Lemma watch_speakerLang_selects_witness :
  exists v,
    find_voice (watch_speaker1Lang quiet_host (js "zh") (reader_state []))
      (speaker1VoiceURI (watch_speaker1Lang quiet_host (js "zh") (reader_state []))) = Some v /\
    JsString.startsWith (lang v) (js "zh") = true.
Proof.
  destruct (watch_speakerLang_selects quiet_host (js "zh") (reader_state []))
    as (((v & Hv & _ & Hl & _) & _) & _).
  - vm_compute. discriminate.
  - vm_compute. repeat constructor; cbn; intuition discriminate.
  - exists v. split; [exact Hv | exact Hl].
Defined.

(** X11: when no catalog voice has a language starting with the new
    language, both language watchers leave the state as it is: the previous
    selection stays. *)
Theorem watch_speakerLang_without_voice (h : host) (newLang : jsstring) (st : state) :
  (forall v, In v (voices st) -> JsString.startsWith (lang v) newLang = false) ->
  watch_speaker1Lang h newLang st = st /\ watch_speaker2Lang h newLang st = st.
Proof.
  intros Hnone.
  assert (Hf : filteredVoicesByLang st newLang = []).
  { unfold filteredVoicesByLang. apply filter_none. now apply Forall_forall. }
  unfold watch_speaker1Lang, watch_speaker2Lang. cbv zeta. rewrite Hf. now split.
Qed.

Lemma watch_speakerLang_without_voice_witness :
  watch_speaker1Lang quiet_host (js "ja") (reader_state []) = reader_state [].
Proof.
  refine (proj1 (watch_speakerLang_without_voice quiet_host (js "ja") (reader_state []) _)).
  intros v [<- | [<- | []]]; reflexivity.
Defined.

(* ===================================================================== *)
(** * Line dispatcher: further properties *)
(* ===================================================================== *)

(** ** Dispatch on an arbitrary host *)

Ltac fields :=
  cbn [text voices speaker1VoiceURI speaker2VoiceURI errorMessage currentLineIndex
       set_voices set_speaker1VoiceURI set_speaker2VoiceURI set_errorMessage
       set_currentLineIndex final effects ending emit fst snd] in *.

Lemma same_selection_refl (st : state) : same_selection st st.
Proof. repeat split. Qed.

Lemma await_onend_frame (evs : list utterance_event) : forall st,
  same_selection st (fst (await_onend evs st)) /\
  text (fst (await_onend evs st)) = text st /\
  currentLineIndex (fst (await_onend evs st)) = currentLineIndex st.
Proof.
  induction evs as [|[|e] evs IH]; intros st; cbn [await_onend fst].
  1, 2: repeat split.
  destruct (IH (set_errorMessage (MsgUtteranceError e) st)) as ((Hv & H1 & H2) & Ht & Hc).
  repeat split; assumption.
Qed.

Lemma await_settled_frame (evs : list utterance_event) (st : state) :
  same_selection st (fst (await_settled evs st)) /\
  text (fst (await_settled evs st)) = text st /\
  currentLineIndex (fst (await_settled evs st)) = currentLineIndex st.
Proof. destruct evs as [|[|e] evs]; repeat split. Qed.

Lemma submitted_emit_speak (utterText : jsstring) (voice : SpeechSynthesisVoice)
  (pre : list effect) (r : result) :
  utterances pre = [] ->
  submitted (emit (pre ++ [SynthSpeak utterText voice]) r) =
  (utterText, Some voice) :: submitted r.
Proof.
  intros Hpre. unfold submitted. cbn [emit effects].
  rewrite !utterances_app, Hpre. reflexivity.
Qed.

Lemma readAloud_from_any (h : host) (st0 : state) (lines : list jsstring) :
  forall (i : nat) (st : state),
  same_selection st0 st ->
  let r := readAloud_from h lines i st in
  (exists k, (k <= List.length lines)%nat /\
     submitted r = map (resolve_line st0) (firstn k lines)) /\
  text (final r) = text st /\
  same_selection st0 (final r) /\
  ending r <> Rejected /\
  (ending r = Completed -> currentLineIndex (final r) = None) /\
  (ending r = Suspended ->
   exists n, List.length (utterances (effects r)) = S n /\
             currentLineIndex (final r) = Some (i + n)%nat).
Proof.
  induction lines as [|line rest IH]; intros i st Hsel; cbv zeta.
  - cbn [readAloud_from]. fields. repeat split; try discriminate; try apply Hsel.
    exists 0%nat. split; [apply Nat.le_0_l | reflexivity].
  - cbn [readAloud_from]. rewrite (resolve_line_same st0 st line Hsel).
    destruct (resolve_line st0 line) as [utterText [voice|]] eqn:Eres.
    + pose proof (await_onend_frame (respond h i utterText voice)
                    (set_currentLineIndex (Some i) st)) as (Hs1 & Ht1 & Hc1).
      destruct (await_onend (respond h i utterText voice)
                  (set_currentLineIndex (Some i) st)) as [st1 resolved].
      fields.
      assert (Hsel1 : same_selection st0 st1)
        by (eapply same_selection_trans; [exact Hsel | exact Hs1]).
      destruct resolved.
      * destruct (IH (S i) st1 Hsel1) as ((k & Hk & Hsub) & Ht & Hs & Hr & Hc & Hsus).
        cbv zeta in *. repeat split; try assumption; try (now rewrite Ht); try apply Hs.
        -- exists (S k). split; [cbn [List.length]; lia|].
           change [SetCurrentLine (Some i); SynthSpeak utterText voice]
             with ([SetCurrentLine (Some i)] ++ [SynthSpeak utterText voice]).
           rewrite submitted_emit_speak by reflexivity.
           cbn [firstn map]. now rewrite Eres, Hsub.
        -- intros Hsusp. destruct (Hsus Hsusp) as (n & Hn & Hidx).
           exists (S n). split; [cbn [utterances app List.length]; now rewrite Hn|].
           rewrite Hidx. f_equal. lia.
      * fields. repeat split; try assumption; try discriminate; try apply Hsel1.
        -- exists 1%nat. split; [cbn [List.length]; lia|].
           cbn [firstn map]. now rewrite Eres.
        -- intros _. exists 0%nat. split; [reflexivity|].
           rewrite Hc1. f_equal. lia.
    + fields. repeat split; try discriminate; try apply Hsel.
      exists 0%nat. split; [apply Nat.le_0_l | reflexivity].
Qed.

(** X12: whatever the host does, the utterances [readAloud] submits are
    the utterance texts and voices of the first k planned lines, in the
    order of the text, for some k; [readAloud] changes neither the text nor
    the catalog nor the selections, and its promise is never rejected. *)
Theorem readAloud_speaks_in_order (h : host) (st : state) :
  let r := readAloud h st in
  (exists k, (k <= List.length (plan (text st)))%nat /\
     submitted r = map (resolve_line st) (firstn k (plan (text st)))) /\
  text (final r) = text st /\
  same_selection st (final r) /\
  ending r <> Rejected.
Proof.
  cbv zeta.
  destruct (list_nil_dec (text st)) as [Ht | Ht];
    [| destruct (list_nil_dec (voices st)) as [Hv | Hv]].
  1, 2: rewrite readAloud_missing by tauto; fields; unfold submitted; fields;
        rewrite utterances_cancel; repeat split; try discriminate;
        exists 0%nat; (split; [apply Nat.le_0_l | reflexivity]).
  rewrite readAloud_started by assumption.
  destruct (readAloud_from_any h st (plan (text st)) 0 (set_errorMessage MsgEmpty st)
              (same_selection_refl st)) as ((k & Hk & Hsub) & Ht' & Hs & Hr & _).
  cbv zeta in *. fields. repeat split; try assumption; try apply Hs.
  exists k. split; [exact Hk|]. rewrite <- Hsub. unfold submitted. fields.
  now rewrite utterances_app, utterances_cancel.
Qed.

(** X13: the line indicator of [readAloud], for a non-empty text and a
    non-empty catalog and whatever the host does.  When the call completes
    the indicator is cleared; when the call stays suspended on an utterance
    that never ends, at least one utterance was submitted and the indicator
    stays on the line of the last one. *)
Theorem readAloud_indicator (h : host) (st : state) :
  text st <> [] -> voices st <> [] ->
  let r := readAloud h st in
  (ending r = Completed -> currentLineIndex (final r) = None) /\
  (ending r = Suspended ->
   exists n, List.length (utterances (effects r)) = S n /\
             currentLineIndex (final r) = Some n).
Proof.
  intros Ht Hv. cbv zeta. rewrite readAloud_started by assumption.
  destruct (readAloud_from_any h st (plan (text st)) 0 (set_errorMessage MsgEmpty st)
              (same_selection_refl st)) as (_ & _ & _ & _ & Hc & Hsus).
  cbv zeta in *. fields. split; [exact Hc|].
  intros Hsusp. destruct (Hsus Hsusp) as (n & Hn & Hidx).
  exists n. split; [|exact Hidx].
  now rewrite utterances_app, utterances_cancel.
Qed.

Lemma readAloud_indicator_witness :
  currentLineIndex (final (readAloud quiet_host (reader_state two_lines))) = None /\
  currentLineIndex (final (readAloud failing_host (reader_state two_lines))) = Some 0%nat.
Proof.
  split.
  - apply (readAloud_indicator quiet_host (reader_state two_lines));
      [discriminate | discriminate | reflexivity].
  - destruct (readAloud_indicator failing_host (reader_state two_lines)) as (_ & Hsus);
      [discriminate | discriminate |].
    destruct (Hsus eq_refl) as (n & Hn & Hidx).
    vm_compute in Hn. injection Hn as <-. exact Hidx.
Defined.

(** ** Recording mode on an arbitrary host *)

Lemma stop_defined (session : capture_session) : exists wavBlob, stop session = Some wavBlob.
Proof. eexists. apply stop_bytes. Qed.

Lemma speak_from_any (h : host) (session : capture_session) (st0 : state)
  (lines : list jsstring) :
  forall (i : nat) (st : state),
  same_selection st0 st ->
  let r := speak_from h session lines i st in
  (exists k, (k <= List.length lines)%nat /\
     submitted r = map (resolve_line st0) (firstn k lines)) /\
  text (final r) = text st /\
  same_selection st0 (final r) /\
  currentLineIndex (final r) = currentLineIndex st /\
  (forall j, ~ In (SetCurrentLine j) (effects r)) /\
  (forall fileName content, In (Download fileName content) (effects r) ->
     fileName = js "tts-audio.wav" /\
     stop session = Some content /\
     submitted r = map (resolve_line st0) lines /\
     ending r = Completed /\
     errorMessage (final r) = MsgDownloaded).
Proof.
  induction lines as [|raw rest IH]; intros i st Hsel; cbv zeta.
  - cbn [speak_from]. unfold stop_and_download.
    destruct (stop_defined session) as (wavBlob & Hstop). rewrite Hstop. fields.
    repeat split; try apply Hsel.
    + exists 0%nat. split; [apply Nat.le_0_l | reflexivity].
    + intros j [Hj | [Hj | []]]; discriminate.
    + destruct H as [H | [H | []]]; [discriminate | now injection H].
    + destruct H as [H | [H | []]]; [discriminate | now injection H as _ <-].
  - cbn [speak_from]. rewrite (resolve_line_same st0 st raw Hsel).
    destruct (resolve_line st0 raw) as [utterText [voice|]] eqn:Eres.
    + pose proof (await_settled_frame (respond h i utterText voice) st) as (Hs1 & Ht1 & Hc1).
      destruct (await_settled (respond h i utterText voice) st) as [st1 settled].
      fields.
      assert (Hsel1 : same_selection st0 st1)
        by (eapply same_selection_trans; [exact Hsel | exact Hs1]).
      destruct settled.
      * destruct (IH (S i) st1 Hsel1) as ((k & Hk & Hsub) & Ht & Hs & Hc & Hno & Hdl).
        cbv zeta in *.
        repeat split; try (now rewrite Ht); try (now rewrite Hc); try apply Hs.
        -- exists (S k). split; [cbn [List.length]; lia|].
           rewrite (submitted_emit_speak utterText voice []) by reflexivity.
           cbn [firstn map]. now rewrite Eres, Hsub.
        -- intros j [Hj | Hj]; [discriminate | now apply (Hno j)].
        -- destruct H as [H | H]; [discriminate | now apply (Hdl _ _ H)].
        -- destruct H as [H | H]; [discriminate | now apply (Hdl _ _ H)].
        -- destruct H as [H | H]; [discriminate|].
           rewrite (submitted_emit_speak utterText voice []) by reflexivity.
           cbn [map]. rewrite Eres. f_equal. now apply (Hdl _ _ H).
        -- destruct H as [H | H]; [discriminate | now apply (Hdl _ _ H)].
        -- destruct H as [H | H]; [discriminate | now apply (Hdl _ _ H)].
      * fields. repeat split; try assumption; try apply Hsel1;
          try (destruct H as [H | []]; discriminate).
        -- exists 1%nat. split; [cbn [List.length]; lia|].
           cbn [firstn map]. now rewrite Eres.
        -- intros j [Hj | []]; discriminate.
      * fields. repeat split; try assumption; try apply Hsel1;
          try (destruct H as [H | []]; discriminate).
        -- exists 1%nat. split; [cbn [List.length]; lia|].
           cbn [firstn map]. now rewrite Eres.
        -- intros j [Hj | []]; discriminate.
    + fields. repeat split; try apply Hsel; try contradiction.
      * exists 0%nat. split; [apply Nat.le_0_l | reflexivity].
      * intros j [].
Qed.

Lemma in_cancel (h : host) (e : effect) : In e (cancel_if_speaking h) -> e = SynthCancel.
Proof.
  unfold cancel_if_speaking. destruct (speaking h); [intros [<- | []] | intros []]; reflexivity.
Qed.

Lemma submitted_emit_silent (pre : list effect) (r : result) :
  utterances pre = [] -> submitted (emit pre r) = submitted r.
Proof. intros H. unfold submitted. fields. now rewrite utterances_app, H. Qed.

(** X14: whatever the host does, the utterances [speak] submits are the
    utterance texts and voices of the first k planned lines, in the order of
    the text, for some k; [speak] changes neither the text nor the catalog
    nor the selections, and it never writes the line indicator. *)
Theorem speak_speaks_in_order (h : host) (st : state) :
  let r := speak h st in
  (exists k, (k <= List.length (plan (text st)))%nat /\
     submitted r = map (resolve_line st) (firstn k (plan (text st)))) /\
  text (final r) = text st /\
  same_selection st (final r) /\
  currentLineIndex (final r) = currentLineIndex st /\
  (forall j, ~ In (SetCurrentLine j) (effects r)).
Proof.
  cbv zeta.
  assert (Hzero : exists k, (k <= List.length (plan (text st)))%nat /\
            [] = map (resolve_line st) (firstn k (plan (text st))))
    by (exists 0%nat; split; [apply Nat.le_0_l | reflexivity]).
  destruct (list_nil_dec (text st)) as [Ht | Ht];
    [| destruct (list_nil_dec (voices st)) as [Hv | Hv]].
  1, 2: rewrite speak_missing by tauto; fields; unfold submitted; fields;
        rewrite utterances_cancel; repeat split; try exact Hzero;
        intros j Hj; apply in_cancel in Hj; discriminate.
  rewrite speak_started by assumption.
  rewrite submitted_emit_silent by apply utterances_cancel.
  rewrite submitted_emit_silent by reflexivity.
  destruct (getDisplayMedia h) as [session | |].
  - rewrite submitted_emit_silent by reflexivity.
    destruct (speak_from_any h session st (plan (text st)) 0
                (set_errorMessage MsgRecording st) (same_selection_refl st))
      as (Hk & Ht' & Hs & Hc & Hno & _).
    cbv zeta in *. fields. repeat split; try assumption; try apply Hs.
    intros j Hj. apply in_app_or in Hj as [Hj | [Hj | [Hj | Hj]]];
      [apply in_cancel in Hj; discriminate | discriminate | discriminate
      | now apply (Hno j)].
  - fields. unfold submitted. fields. repeat split; try exact Hzero.
    intros j Hj. apply in_app_or in Hj as [Hj | [Hj | []]];
      [apply in_cancel in Hj; discriminate | discriminate].
  - fields. unfold submitted. fields. repeat split; try exact Hzero.
    intros j Hj. apply in_app_or in Hj as [Hj | [Hj | []]];
      [apply in_cancel in Hj; discriminate | discriminate].
Qed.

(** X15: [speak] downloads a file only at the very end.  If its trace
    holds a download, the file is named tts-audio.wav, its content is what
    [stop] returns for the granted capture, every planned line has been
    submitted, the call has completed and the status is the downloaded
    message. *)
Theorem speak_download_after_all_lines (h : host) (st : state)
  (fileName : jsstring) (content : ArrayBuffer) :
  In (Download fileName content) (effects (speak h st)) ->
  let r := speak h st in
  fileName = js "tts-audio.wav" /\
  (exists session, getDisplayMedia h = CaptureGranted session /\
                   stop session = Some content) /\
  submitted r = map (resolve_line st) (plan (text st)) /\
  ending r = Completed /\
  errorMessage (final r) = MsgDownloaded.
Proof.
  cbv zeta.
  destruct (list_nil_dec (text st)) as [Ht | Ht];
    [| destruct (list_nil_dec (voices st)) as [Hv | Hv]].
  1, 2: rewrite speak_missing by tauto; fields; intros Hin;
        apply in_cancel in Hin; discriminate.
  rewrite speak_started by assumption.
  rewrite submitted_emit_silent by apply utterances_cancel.
  rewrite submitted_emit_silent by reflexivity.
  destruct (getDisplayMedia h) as [session | |].
  - rewrite submitted_emit_silent by reflexivity.
    destruct (speak_from_any h session st (plan (text st)) 0
                (set_errorMessage MsgRecording st) (same_selection_refl st))
      as (_ & _ & _ & _ & _ & Hdl).
    cbv zeta in *. fields. intros Hin.
    apply in_app_or in Hin as [Hin | [Hin | [Hin | Hin]]];
      [apply in_cancel in Hin; discriminate | discriminate | discriminate |].
    destruct (Hdl _ _ Hin) as (Hf & Hstop & Hsub & He & Hm).
    repeat split; try assumption. now exists session.
  - fields. intros Hin. apply in_app_or in Hin as [Hin | [Hin | []]];
      [apply in_cancel in Hin; discriminate | discriminate].
  - fields. intros Hin. apply in_app_or in Hin as [Hin | [Hin | []]];
      [apply in_cancel in Hin; discriminate | discriminate].
Qed.

Lemma speak_from_steps (h : host) (session : capture_session) (st0 : state) (k : nat) :
  forall (lines : list jsstring) (i : nat) (st : state),
  same_selection st0 st ->
  (k <= List.length lines)%nat ->
  (forall j line, (j < k)%nat -> nth_error lines j = Some line ->
     exists voice evs,
       snd (resolve_line st0 line) = Some voice /\
       respond h (i + j) (fst (resolve_line st0 line)) voice = OnEnd :: evs) ->
  exists us,
    map (fun p => (fst p, Some (snd p))) us = map (resolve_line st0) (firstn k lines) /\
    speak_from h session lines i st =
    emit (map (fun p => SynthSpeak (fst p) (snd p)) us)
         (speak_from h session (skipn k lines) (i + k) st).
Proof.
  induction k as [|k IH]; intros lines i st Hsel Hlen Hok.
  - exists []. split; [reflexivity|]. cbn [skipn map]. rewrite Nat.add_0_r.
    now destruct (speak_from h session lines i st).
  - destruct lines as [|raw rest]; [cbn in Hlen; lia|].
    destruct (Hok 0%nat raw ltac:(lia) eq_refl) as (voice & evs & Hres & Hresp).
    rewrite Nat.add_0_r in Hresp.
    destruct (IH rest (S i) st Hsel) as (us & Hus & Hrun).
    { cbn in Hlen. lia. }
    { intros j line Hj Hnth. destruct (Hok (S j) line ltac:(lia) Hnth) as (v & es & Hv & He).
      exists v, es. split; [exact Hv|]. now rewrite <- He, Nat.add_succ_r. }
    exists ((fst (resolve_line st0 raw), voice) :: us). split.
    + cbn [map firstn fst snd]. rewrite Hus. f_equal.
      destruct (resolve_line st0 raw) as [u v]. cbn [fst snd] in *. now rewrite Hres.
    + cbn [speak_from]. rewrite (resolve_line_same st0 st raw Hsel).
      destruct (resolve_line st0 raw) as [u v]. cbn [fst snd] in *. subst v.
      rewrite Hresp. cbn [await_settled]. rewrite Hrun. cbn [skipn map fst snd].
      unfold emit. fields. now rewrite Nat.add_succ_r.
Qed.

(** X16: [speak] with a granted capture, a planned line of index k whose
    speaker voice is not in the catalog, and every earlier line spoken to
    its end: the call completes with the no-voice status and no other change
    of the state, the first k lines are the utterances submitted, and the
    recorder is never stopped and nothing is downloaded. *)
Theorem speak_unresolved_voice (h : host) (st : state) (session : capture_session)
  (k : nat) (raw : jsstring) :
  text st <> [] -> voices st <> [] ->
  getDisplayMedia h = CaptureGranted session ->
  nth_error (plan (text st)) k = Some raw ->
  snd (resolve_line st raw) = None ->
  (forall j line, (j < k)%nat -> nth_error (plan (text st)) j = Some line ->
     exists voice evs,
       snd (resolve_line st line) = Some voice /\
       respond h j (fst (resolve_line st line)) voice = OnEnd :: evs) ->
  let r := speak h st in
  ending r = Completed /\
  final r = set_errorMessage MsgNoVoiceSpeak st /\
  submitted r = map (resolve_line st) (firstn k (plan (text st))) /\
  ~ In TapDisconnected (effects r) /\
  (forall fileName content, ~ In (Download fileName content) (effects r)).
Proof.
  intros Ht Hv Hcap Hnth Hnone Hok. cbv zeta.
  rewrite speak_started by assumption. rewrite Hcap.
  destruct (speak_from_steps h session st k (plan (text st)) 0
              (set_errorMessage MsgRecording st) (same_selection_refl st))
    as (us & Hus & Hrun).
  { apply Nat.lt_le_incl, nth_error_Some. now rewrite Hnth. }
  { exact Hok. }
  rewrite Hrun.
  assert (Hskip : exists rest, skipn k (plan (text st)) = raw :: rest).
  { clear - Hnth. revert k Hnth. induction (plan (text st)) as [|l ls IH]; intros [|k] Hnth;
      try discriminate.
    - injection Hnth as ->. now exists ls.
    - now apply IH. }
  destruct Hskip as (rest & ->). cbn [speak_from].
  rewrite (resolve_line_same st (set_errorMessage MsgRecording st) raw (same_selection_refl st)).
  destruct (resolve_line st raw) as [u v]. cbn [snd] in Hnone. subst v.
  assert (Hutt : utterances (map (fun p => SynthSpeak (fst p) (snd p)) us) = us).
  { clear. induction us as [|[u v] us IH]; [reflexivity|]. cbn. now rewrite IH. }
  assert (Hquiet : forall e, In e (map (fun p => SynthSpeak (fst p) (snd p)) us) ->
                     exists u v, e = SynthSpeak u v).
  { intros e He. apply in_map_iff in He as (p & <- & _). now eexists _, _. }
  fields. repeat split.
  - unfold submitted. fields.
    rewrite !utterances_app, utterances_cancel, Hutt. cbn [utterances app].
    rewrite app_nil_r. exact Hus.
  - intros Hin. apply in_app_or in Hin as [Hin | [Hin | [Hin | Hin]]];
      [apply in_cancel in Hin; discriminate | discriminate | discriminate |].
    rewrite app_nil_r in Hin. apply Hquiet in Hin as (u' & v' & Hin). discriminate.
  - intros fileName content Hin. apply in_app_or in Hin as [Hin | [Hin | [Hin | Hin]]];
      [apply in_cancel in Hin; discriminate | discriminate | discriminate |].
    rewrite app_nil_r in Hin. apply Hquiet in Hin as (u' & v' & Hin). discriminate.
Qed.

Lemma speak_unresolved_voice_witness :
  let r := speak recording_host (set_speaker2VoiceURI UriNull (reader_state two_lines)) in
  ending r = Completed /\
  errorMessage (final r) = MsgNoVoiceSpeak /\
  List.length (utterances (effects r)) = 1%nat /\
  ~ In TapDisconnected (effects r).
Proof.
  destruct (speak_unresolved_voice recording_host
              (set_speaker2VoiceURI UriNull (reader_state two_lines))
              short_capture 1 (js "Speaker 2: Ni hao"))
    as (He & Hf & Hs & Hno & _).
  - discriminate.
  - discriminate.
  - reflexivity.
  - reflexivity.
  - reflexivity.
  - intros [|j] line Hj Hnth; [|lia]. injection Hnth as <-.
    exists voice_emma, []. split; reflexivity.
  - cbv zeta. split; [exact He|]. split; [now rewrite Hf|]. split; [|exact Hno].
    unfold submitted in Hs. apply (f_equal (@List.length _)) in Hs.
    rewrite length_map in Hs. rewrite Hs. reflexivity.
Defined.

(** X17: the successful recording.  With a non-empty text and catalog, a
    granted capture, and every planned line resolvable and spoken to its
    end, the trace of [speak] is: the cancel if the engine was speaking, the
    capture request, the connection of the tap, one utterance per planned
    line in order, the disconnection of the tap, and the download of
    tts-audio.wav with the bytes [stop] returns; the status ends as the
    downloaded message and the call completes. *)
Theorem speak_records_to_file (h : host) (st : state) (session : capture_session) :
  text st <> [] -> voices st <> [] ->
  getDisplayMedia h = CaptureGranted session ->
  (forall j line, nth_error (plan (text st)) j = Some line ->
     exists voice evs,
       snd (resolve_line st line) = Some voice /\
       respond h j (fst (resolve_line st line)) voice = OnEnd :: evs) ->
  let r := speak h st in
  exists us wavBlob,
    map (fun p => (fst p, Some (snd p))) us = map (resolve_line st) (plan (text st)) /\
    stop session = Some wavBlob /\
    effects r = cancel_if_speaking h ++ [RequestDisplayMedia; TapConnected] ++
                map (fun p => SynthSpeak (fst p) (snd p)) us ++
                [TapDisconnected; Download (js "tts-audio.wav") wavBlob] /\
    final r = set_errorMessage MsgDownloaded st /\
    ending r = Completed.
Proof.
  intros Ht Hv Hcap Hok. cbv zeta.
  rewrite speak_started by assumption. rewrite Hcap.
  destruct (speak_from_steps h session st (List.length (plan (text st))) (plan (text st)) 0
              (set_errorMessage MsgRecording st) (same_selection_refl st) (Nat.le_refl _))
    as (us & Hus & Hrun).
  { intros j line _ Hnth. now apply Hok. }
  rewrite Hrun, skipn_all, firstn_all in *. cbn [speak_from]. unfold stop_and_download.
  destruct (stop_defined session) as (wavBlob & Hstop). rewrite Hstop.
  exists us, wavBlob. fields. repeat split; assumption.
Qed.

Lemma speak_records_to_file_witness :
  ending (speak recording_host (reader_state two_lines)) = Completed /\
  errorMessage (final (speak recording_host (reader_state two_lines))) = MsgDownloaded.
Proof.
  destruct (speak_records_to_file recording_host (reader_state two_lines) short_capture)
    as (us & wavBlob & _ & _ & _ & Hf & He).
  - discriminate.
  - discriminate.
  - reflexivity.
  - intros [|[|j]] line Hnth.
    + injection Hnth as <-. exists voice_emma, []. split; reflexivity.
    + injection Hnth as <-. exists voice_xiaoxiao, []. split; reflexivity.
    + destruct j; discriminate.
  - split; [exact He | now rewrite Hf].
Defined.

Lemma speak_download_after_all_lines_witness :
  exists content,
    In (Download (js "tts-audio.wav") content)
       (effects (speak recording_host (reader_state two_lines))) /\
    ending (speak recording_host (reader_state two_lines)) = Completed.
Proof.
  destruct (stop_defined short_capture) as (wavBlob & Hstop).
  assert (Hin : In (Download (js "tts-audio.wav") wavBlob)
                   (effects (speak recording_host (reader_state two_lines)))).
  { rewrite speak_started by discriminate.
    change (getDisplayMedia recording_host) with (CaptureGranted short_capture).
    change (plan (text (reader_state two_lines)))
      with [js "Speaker 1:Hello"; js "Speaker 2: Ni hao"].
    cbn [speak_from]. 
    change (resolve_line (set_errorMessage MsgRecording (reader_state two_lines))
              (js "Speaker 1:Hello")) with (js "Hello", Some voice_emma).
    change (resolve_line (set_errorMessage MsgRecording (reader_state two_lines))
              (js "Speaker 2: Ni hao")) with (js "Ni hao", Some voice_xiaoxiao).
    cbn [respond recording_host always_ends await_settled speak_from].
    unfold stop_and_download. rewrite Hstop. fields.
    apply in_or_app. right. cbn. tauto. }
  exists wavBlob. split; [exact Hin|].
  now apply (speak_download_after_all_lines recording_host (reader_state two_lines)
               (js "tts-audio.wav") wavBlob Hin).
Defined.

Lemma readAloud_from_unresolved (h : host) (st0 : state) (k : nat) :
  forall (lines : list jsstring) (i : nat) (st : state) (line : jsstring),
  same_selection st0 st ->
  nth_error lines k = Some line ->
  snd (resolve_line st0 line) = None ->
  (forall j l, (j < k)%nat -> nth_error lines j = Some l ->
     exists voice,
       snd (resolve_line st0 l) = Some voice /\
       In OnEnd (respond h (i + j) (fst (resolve_line st0 l)) voice)) ->
  let r := readAloud_from h lines i st in
  ending r = Completed /\
  errorMessage (final r) = MsgNoVoiceRead /\
  currentLineIndex (final r) = None /\
  effects r = dispatch_effects st0 i (firstn k lines) ++ [SetCurrentLine None].
Proof.
  induction k as [|k IH]; intros lines i st line Hsel Hnth Hnone Hok; cbv zeta.
  - destruct lines as [|l rest]; [discriminate|]. injection Hnth as ->.
    cbn [readAloud_from]. rewrite (resolve_line_same st0 st line Hsel).
    destruct (resolve_line st0 line) as [u v]. cbn [snd] in Hnone. subst v.
    repeat split.
  - destruct lines as [|l rest]; [discriminate|]. cbn [nth_error] in Hnth.
    destruct (Hok 0%nat l ltac:(lia) eq_refl) as (voice & Hres & Hend).
    rewrite Nat.add_0_r in Hend.
    cbn [readAloud_from firstn dispatch_effects]. unfold line_effects.
    rewrite (resolve_line_same st0 st l Hsel).
    destruct (resolve_line st0 l) as [u v]. cbn [fst snd] in *. subst v.
    destruct (await_onend_resolved (respond h i u voice) (set_currentLineIndex (Some i) st) Hend)
      as (st1 & Haw & Hs1 & _).
    rewrite Haw.
    assert (Hsel1 : same_selection st0 st1)
      by (eapply same_selection_trans; [exact Hsel | exact Hs1]).
    destruct (IH rest (S i) st1 line Hsel1 Hnth Hnone) as (He & Hm & Hc & Heff).
    { intros j l' Hj Hl'. destruct (Hok (S j) l' ltac:(lia) Hl') as (v & Hv & Hin).
      exists v. split; [exact Hv|].
      now replace (S i + j)%nat with (i + S j)%nat by lia. }
    cbv zeta in *. fields. repeat split; try assumption.
    now rewrite Heff.
Qed.

(** X18: [readAloud] with a non-empty text and catalog, a planned line of
    index k whose speaker voice is not in the catalog, and every earlier
    line resolvable and brought to its end: the call completes with the
    no-voice status and a cleared indicator after exactly the k utterances
    of the earlier lines. *)
Theorem readAloud_unresolved_voice (h : host) (st : state) (k : nat) (line : jsstring) :
  text st <> [] -> voices st <> [] ->
  nth_error (plan (text st)) k = Some line ->
  snd (resolve_line st line) = None ->
  (forall j l, (j < k)%nat -> nth_error (plan (text st)) j = Some l ->
     exists voice,
       snd (resolve_line st l) = Some voice /\
       In OnEnd (respond h j (fst (resolve_line st l)) voice)) ->
  let r := readAloud h st in
  ending r = Completed /\
  errorMessage (final r) = MsgNoVoiceRead /\
  currentLineIndex (final r) = None /\
  effects r = cancel_if_speaking h ++
              dispatch_effects st 0 (firstn k (plan (text st))) ++ [SetCurrentLine None] /\
  List.length (utterances (effects r)) = k.
Proof.
  intros Ht Hv Hnth Hnone Hok. cbv zeta.
  rewrite readAloud_started by assumption.
  destruct (readAloud_from_unresolved h st k (plan (text st)) 0
              (set_errorMessage MsgEmpty st) line (same_selection_refl st) Hnth Hnone Hok)
    as (He & Hm & Hc & Heff).
  cbv zeta in *. fields. repeat split; try assumption.
  - now rewrite Heff.
  - rewrite Heff, !utterances_app, utterances_cancel. cbn [utterances app].
    rewrite app_nil_r, utterances_dispatch_effects, length_map, length_firstn.
    + apply Nat.min_l, Nat.lt_le_incl, nth_error_Some. now rewrite Hnth.
    + apply Forall_forall. intros l Hl. apply In_nth_error in Hl as (j & Hj).
      rewrite nth_error_firstn in Hj.
      destruct (j <? k)%nat eqn:Ejk; [|discriminate].
      assert (Hjk : (j < k)%nat) by now apply Nat.ltb_lt.
      destruct (Hok j l Hjk Hj) as (voice & Hvoice & _). now exists voice.
Qed.

Lemma readAloud_unresolved_voice_witness :
  let r := readAloud quiet_host (set_speaker2VoiceURI UriNull (reader_state two_lines)) in
  ending r = Completed /\
  errorMessage (final r) = MsgNoVoiceRead /\
  currentLineIndex (final r) = None /\
  List.length (utterances (effects r)) = 1%nat.
Proof.
  destruct (readAloud_unresolved_voice quiet_host
              (set_speaker2VoiceURI UriNull (reader_state two_lines))
              1 (js "Speaker 2: Ni hao"))
    as (He & Hm & Hc & _ & Hn).
  - discriminate.
  - discriminate.
  - reflexivity.
  - reflexivity.
  - intros [|j] l Hj Hnth; [|lia]. injection Hnth as <-.
    exists voice_emma. split; [reflexivity | now left].
  - cbv zeta. split; [exact He|]. split; [exact Hm|]. split; [exact Hc | exact Hn].
Defined.

(** ** Lines of the text *)

Lemma trimStart_split (s : jsstring) :
  exists ws, s = ws ++ JsString.trimStart s /\ forallb JsString.is_whitespace ws = true.
Proof.
  induction s as [|c s (ws & Hs & Hws)]; [now exists []|].
  cbn [JsString.trimStart]. destruct (JsString.is_whitespace c) eqn:Ec.
  - exists (c :: ws). split; [cbn [app]; now f_equal | cbn [forallb]; now rewrite Ec].
  - now exists [].
Qed.

Lemma trimStart_head (s : jsstring) :
  match JsString.trimStart s with
  | [] => True
  | c :: _ => JsString.is_whitespace c = false
  end.
Proof.
  induction s as [|c s IH]; [exact I|].
  cbn [JsString.trimStart]. now destruct (JsString.is_whitespace c) eqn:Ec.
Qed.

Lemma trimStart_idem (s : jsstring) :
  JsString.trimStart (JsString.trimStart s) = JsString.trimStart s.
Proof.
  pose proof (trimStart_head s) as H.
  destruct (JsString.trimStart s) as [|c t]; [reflexivity|].
  cbn [JsString.trimStart]. now rewrite H.
Qed.

Lemma trimStart_nil_iff (s : jsstring) :
  JsString.trimStart s = [] <-> forallb JsString.is_whitespace s = true.
Proof.
  induction s as [|c s IH]; [easy|].
  cbn [JsString.trimStart forallb]. destruct (JsString.is_whitespace c); cbn [andb].
  - exact IH.
  - split; discriminate.
Qed.

Lemma trim_nil_iff (s : jsstring) :
  JsString.trim s = [] <-> forallb JsString.is_whitespace s = true.
Proof.
  unfold JsString.trim, JsString.trimEnd. split.
  - intros H. apply trimStart_nil_iff.
    pose proof (trimStart_head s) as Hhead.
    destruct (JsString.trimStart s) as [|c t] eqn:Et; [reflexivity|]. exfalso.
    apply (f_equal (@rev _)) in H. rewrite rev_involutive in H. cbn [rev] in H.
    apply trimStart_nil_iff in H. rewrite forallb_forall in H.
    specialize (H c). rewrite H in Hhead; [discriminate|].
    apply in_or_app. right. now left.
  - intros H. apply trimStart_nil_iff in H. now rewrite H.
Qed.

Lemma non_blank_iff (l : jsstring) :
  non_blank l = false <-> forallb JsString.is_whitespace l = true.
Proof.
  unfold non_blank. rewrite <- trim_nil_iff.
  destruct (JsString.trim l); cbn; split; congruence.
Qed.

Lemma split_lines_nonempty (s : jsstring) : JsString.split_lines s <> [].
Proof.
  destruct s as [|c s]; cbn [JsString.split_lines]; [discriminate|].
  destruct (N.eqb c JsString.newline); [discriminate|].
  destruct (JsString.split_lines s); discriminate.
Qed.

Lemma split_lines_app (a b : jsstring) :
  JsString.split_lines (a ++ JsString.newline :: b) =
  JsString.split_lines a ++ JsString.split_lines b.
Proof.
  induction a as [|c a IH]; [reflexivity|].
  cbn [app JsString.split_lines]. rewrite IH.
  destruct (N.eqb c JsString.newline); [reflexivity|].
  pose proof (split_lines_nonempty a) as Hne.
  destruct (JsString.split_lines a) as [|l ls]; [now contradiction Hne | reflexivity].
Qed.

Lemma split_lines_clean (s : jsstring) :
  Forall (fun l => ~ In JsString.newline l) (JsString.split_lines s).
Proof.
  induction s as [|c s IH]; cbn [JsString.split_lines].
  - constructor; [intros [] | constructor].
  - destruct (N.eqb_spec c JsString.newline) as [-> | Hc].
    + constructor; [intros [] | exact IH].
    + destruct (JsString.split_lines s) as [|l ls]; inversion IH; subst;
        constructor; try constructor; try assumption.
      * intros [H | []]. now apply Hc.
      * intros [H | H]; [now apply Hc | contradiction].
Qed.

Lemma split_lines_whitespace (s : jsstring) :
  forallb (forallb JsString.is_whitespace) (JsString.split_lines s) =
  forallb JsString.is_whitespace s.
Proof.
  induction s as [|c s IH]; [reflexivity|].
  cbn [JsString.split_lines forallb].
  destruct (N.eqb_spec c JsString.newline) as [-> | Hc].
  - cbn [forallb]. now rewrite IH.
  - pose proof (split_lines_nonempty s) as Hne.
    destruct (JsString.split_lines s) as [|l ls]; [now contradiction Hne|].
    cbn [forallb] in *. now rewrite <- IH, andb_assoc.
Qed.

(** X19: the planned lines.  Every planned line holds no line feed and at
    least one code unit that is not whitespace; the plan is empty exactly
    when every code unit of the text is whitespace; and the plan of two
    texts joined by a line feed is the plan of the first followed by the
    plan of the second. *)
Theorem plan_lines (rawText : jsstring) :
  (forall line, In line (plan rawText) ->
     ~ In JsString.newline line /\
     exists c, In c line /\ JsString.is_whitespace c = false) /\
  (plan rawText = [] <-> forallb JsString.is_whitespace rawText = true) /\
  (forall a b, plan (a ++ JsString.newline :: b) = plan a ++ plan b).
Proof.
  split; [|split].
  - intros line Hin. unfold plan in Hin. apply filter_In in Hin as (Hin & Hnb). split.
    + pose proof (split_lines_clean rawText) as Hclean.
      rewrite Forall_forall in Hclean. now apply Hclean.
    + destruct (forallb JsString.is_whitespace line) eqn:Hall.
      * apply non_blank_iff in Hall. congruence.
      * clear - Hall. induction line as [|c line IH]; [discriminate|].
        cbn [forallb] in Hall. destruct (JsString.is_whitespace c) eqn:Ec.
        -- destruct (IH Hall) as (d & Hd & Hws). exists d. split; [now right | exact Hws].
        -- exists c. split; [now left | exact Ec].
  - rewrite <- split_lines_whitespace. unfold plan.
    induction (JsString.split_lines rawText) as [|l ls IH]; [easy|].
    cbn [filter forallb]. destruct (non_blank l) eqn:Hnb.
    + split; [discriminate|]. intros H. apply andb_prop in H as (H & _).
      apply non_blank_iff in H. congruence.
    + apply non_blank_iff in Hnb. rewrite Hnb. exact IH.
  - intros a b. unfold plan. now rewrite split_lines_app, filter_app.
Qed.

Lemma startsWith_split (s p : jsstring) :
  JsString.startsWith s p = true -> s = p ++ skipn (List.length p) s.
Proof.
  revert s. induction p as [|x p IH]; intros s H; [reflexivity|].
  destruct s as [|y s]; [discriminate|].
  cbn [JsString.startsWith] in H. apply andb_prop in H as (Hxy & H).
  apply N.eqb_eq in Hxy. subst y. cbn [List.length skipn app]. f_equal. now apply IH.
Qed.

Lemma startsWith_app (p s : jsstring) : JsString.startsWith (p ++ s) p = true.
Proof.
  induction p as [|x p IH]; [now destruct s|].
  cbn [app JsString.startsWith]. now rewrite N.eqb_refl.
Qed.

Lemma strip_label_split (line p : jsstring) :
  JsString.startsWith line p = true ->
  exists ws, line = p ++ ws ++ JsString.strip_label line p /\
             forallb JsString.is_whitespace ws = true /\
             JsString.trimStart (JsString.strip_label line p) = JsString.strip_label line p.
Proof.
  intros H. unfold JsString.strip_label. rewrite H.
  destruct (trimStart_split (skipn (List.length p) line)) as (ws & Hs & Hws).
  exists ws. split; [|split].
  - rewrite <- Hs. now apply startsWith_split.
  - exact Hws.
  - apply trimStart_idem.
Qed.

Lemma labels_exclusive (line : jsstring) :
  JsString.startsWith line (js "Speaker 1:") = true ->
  JsString.startsWith line (js "Speaker 2:") = false.
Proof.
  intros H1. destruct (JsString.startsWith line (js "Speaker 2:")) eqn:H2; [|reflexivity].
  apply startsWith_split in H1. apply startsWith_split in H2.
  rewrite H1 in H2 at 1. vm_compute in H2. discriminate.
Qed.

(** X20: the utterance text and voice of a line.  A line that starts with
    the label of speaker 1 (of speaker 2) is that label, then a run of
    whitespace, then the utterance text, which does not start with
    whitespace; its voice is looked up under the selection of speaker 1 (of
    speaker 2).  A line with neither label is spoken whole under the
    selection of speaker 1. *)
Theorem resolve_line_text (st : state) (line : jsstring) :
  let utterText := fst (resolve_line st line) in
  let voice := snd (resolve_line st line) in
  let labelled (p : jsstring) : Prop :=
    exists ws, line = p ++ ws ++ utterText /\
               forallb JsString.is_whitespace ws = true /\
               JsString.trimStart utterText = utterText in
  (JsString.startsWith line (js "Speaker 1:") = true ->
   labelled (js "Speaker 1:") /\ voice = find_voice st (speaker1VoiceURI st)) /\
  (JsString.startsWith line (js "Speaker 2:") = true ->
   labelled (js "Speaker 2:") /\ voice = find_voice st (speaker2VoiceURI st)) /\
  (JsString.startsWith line (js "Speaker 1:") = false ->
   JsString.startsWith line (js "Speaker 2:") = false ->
   utterText = line /\ voice = find_voice st (speaker1VoiceURI st)).
Proof.
  cbv zeta. unfold resolve_line. split; [|split].
  - intros H1. rewrite H1. cbn [fst snd]. split; [|reflexivity].
    now apply strip_label_split.
  - intros H2. destruct (JsString.startsWith line (js "Speaker 1:")) eqn:H1.
    + apply labels_exclusive in H1. congruence.
    + rewrite H2. cbn [fst snd]. split; [|reflexivity]. now apply strip_label_split.
  - intros H1 H2. rewrite H1, H2. now split.
Qed.

Lemma resolve_line_text_witness :
  exists ws, js "Speaker 2: Ni hao" = js "Speaker 2:" ++ ws ++ js "Ni hao" /\
             forallb JsString.is_whitespace ws = true.
Proof.
  destruct (resolve_line_text (reader_state two_lines) (js "Speaker 2: Ni hao"))
    as (_ & H2 & _).
  destruct (H2 eq_refl) as ((ws & Hline & Hws & _) & _).
  exists ws. split; [exact Hline | exact Hws].
Defined.

(** X21: a line that holds only a speaker label followed by whitespace is
    not blank, so it is planned, and its utterance text is the empty
    string. *)
Theorem label_only_line (st : state) (ws : jsstring) :
  forallb JsString.is_whitespace ws = true ->
  non_blank (js "Speaker 1:" ++ ws) = true /\
  non_blank (js "Speaker 2:" ++ ws) = true /\
  resolve_line st (js "Speaker 1:" ++ ws) = ([], find_voice st (speaker1VoiceURI st)) /\
  resolve_line st (js "Speaker 2:" ++ ws) = ([], find_voice st (speaker2VoiceURI st)).
Proof.
  intros Hws.
  assert (Hnb : forall p, JsString.is_whitespace (hd 0%N p) = false -> p <> [] ->
                  non_blank (p ++ ws) = true).
  { intros p Hp Hne. destruct (non_blank (p ++ ws)) eqn:E; [reflexivity|].
    apply non_blank_iff in E. destruct p as [|c p]; [now contradiction Hne|].
    cbn [app forallb hd] in *. rewrite Hp in E. discriminate. }
  assert (Hstrip : forall p, JsString.strip_label (p ++ ws) p = []).
  { intros p. unfold JsString.strip_label. rewrite startsWith_app.
    rewrite skipn_app, skipn_all, Nat.sub_diag. cbn [app skipn].
    now apply trimStart_nil_iff. }
  split; [apply Hnb; [reflexivity | discriminate]|].
  split; [apply Hnb; [reflexivity | discriminate]|].
  unfold resolve_line. rewrite !startsWith_app, !Hstrip.
  split; [reflexivity|].
  destruct (JsString.startsWith (js "Speaker 2:" ++ ws) (js "Speaker 1:")) eqn:H1;
    [|reflexivity].
  apply labels_exclusive in H1. now rewrite startsWith_app in H1.
Qed.

Lemma label_only_line_witness :
  resolve_line (reader_state two_lines) (js "Speaker 2: ") =
  ([], Some voice_xiaoxiao).
Proof.
  destruct (label_only_line (reader_state two_lines) (js " ") eq_refl) as (_ & _ & _ & H2).
  exact H2.
Defined.

(* ===================================================================== *)
(** * Waveform encoder: the capture blocks *)
(* ===================================================================== *)

Lemma length_wav_header (dataBytes rate : Z) : List.length (wav_header dataBytes rate) = 44%nat.
Proof.
  unfold wav_header. rewrite !length_app, !length_char_bytes, !length_le_split. reflexivity.
Qed.

Lemma length_pcm16_of_sample (x : float) : List.length (pcm16_of_sample x) = 2%nat.
Proof. apply length_le_split. Qed.

Lemma pcm16_slice (xs : list float) : forall (k : nat) (x : float),
  nth_error xs k = Some x ->
  firstn 2 (skipn (2 * k) (flat_map pcm16_of_sample xs)) = pcm16_of_sample x.
Proof.
  induction xs as [|y xs IH]; intros [|k] x Hnth; try discriminate.
  - injection Hnth as ->. change (2 * 0)%nat with 0%nat. cbn [flat_map skipn].
    rewrite firstn_app, length_pcm16_of_sample, Nat.sub_diag, firstn_O, app_nil_r.
    apply firstn_all2. now rewrite length_pcm16_of_sample.
  - cbn [nth_error] in Hnth. cbn [flat_map].
    rewrite skipn_app, length_pcm16_of_sample.
    rewrite skipn_all2 by (rewrite length_pcm16_of_sample; lia).
    cbn [app]. replace (2 * S k - 2)%nat with (2 * k)%nat by lia. now apply IH.
Qed.

(** X22: the file [stop] returns depends on the captured samples only, not
    on how the capture cut them into blocks: the blocks can be merged into
    one, and an empty block can be dropped.  The sample of index k of the
    capture is stored in the two bytes at offset 44 + 2k, and read back as a
    little-endian signed 16-bit integer it is the integer the conversion
    gives for that sample. *)
Theorem stop_ignores_block_boundaries (blocks : list (list float)) (rate : Z) :
  stop (mkCapture blocks rate) = stop (mkCapture [List.concat blocks] rate) /\
  (forall before after,
     blocks = before ++ [] :: after ->
     stop (mkCapture blocks rate) = stop (mkCapture (before ++ after) rate)) /\
  (forall k x,
     nth_error (List.concat blocks) k = Some x ->
     exists buf,
       stop (mkCapture blocks rate) = Some buf /\
       firstn 2 (skipn (44 + 2 * k) buf) = pcm16_of_sample x /\
       Number.wrap_int16 (getUint buf (44 + 2 * k) 2) = Number.ToInt16 (scale (clamp x))).
Proof.
  split; [|split].
  - rewrite !stop_bytes. cbn [samples sampleRate List.concat]. now rewrite app_nil_r.
  - intros before after ->. rewrite !stop_bytes. cbn [samples sampleRate].
    now rewrite !concat_app.
  - intros k x Hnth. eexists. split; [apply stop_bytes|]. cbn [samples sampleRate].
    assert (Hslice : firstn 2 (skipn (44 + 2 * k)
                       (wav_header (Z.of_nat (2 * List.length (List.concat blocks))) rate ++
                        flat_map pcm16_of_sample (List.concat blocks))) = pcm16_of_sample x).
    { rewrite skipn_app, length_wav_header.
      rewrite skipn_all2 by (rewrite length_wav_header; lia).
      cbn [app]. replace (44 + 2 * k - 44)%nat with (2 * k)%nat by lia.
      now apply pcm16_slice. }
    split; [exact Hslice|].
    unfold getUint. rewrite Hslice. unfold pcm16_of_sample.
    apply getInt16_le_split. unfold Number.ToInt16. apply wrap_int16_range.
Qed.

Lemma stop_ignores_block_boundaries_witness :
  stop short_capture = stop (mkCapture [[Number.of_Z 1]; []; [half; minus_half]] 48000).
Proof.
  destruct (stop_ignores_block_boundaries [[Number.of_Z 1; half]; [minus_half]] 48000)
    as (H1 & _).
  destruct (stop_ignores_block_boundaries [[Number.of_Z 1]; []; [half; minus_half]] 48000)
    as (H2 & _).
  unfold short_capture. rewrite H1, H2. reflexivity.
Defined.

(* ===================================================================== *)
(** * From the catalog to the dispatch *)
(* ===================================================================== *)

Lemma populate_selected_uris (h : host) (st : state) :
  voices st = [] ->
  let st' := populateVoiceList h st in
  voices st' <> [] ->
  uri_of (voices st') (speaker1VoiceURI st') /\
  uri_of (voices st') (speaker2VoiceURI st').
Proof.
  intros Hv st' Hne.
  assert (Hg : getVoices h <> []).
  { intros Hg. apply Hne. unfold st', populateVoiceList. rewrite Hv, Hg. exact Hv. }
  destruct (populate_selections h st Hv Hg) as [H1 H2]. fold st' in H1, H2.
  rewrite H1, H2. split; [|destruct (isEdge h)]; now apply default_chain_uri_of.
Qed.

Lemma populate_text (h : host) (st : state) : text (populateVoiceList h st) = text st.
Proof.
  unfold populateVoiceList.
  repeat match goal with
         | |- context [if ?b then _ else _] => destruct b
         | |- context [match ?l with [] => _ | _ :: _ => _ end] => destruct l
         end; reflexivity.
Qed.

(** X23: from the catalog to the dispatch.  After a run of
    [populateVoiceList] that starts from an empty catalog and leaves a
    non-empty one, every line has a speaker voice in the catalog; so on a
    host whose engine brings every utterance to its end, [readAloud] on a
    non-empty text completes, submits one utterance per planned line and
    clears the indicator. *)
Theorem populate_then_readAloud (h : host) (st : state) :
  voices st = [] ->
  text st <> [] ->
  let st' := populateVoiceList h st in
  voices st' <> [] ->
  (forall line, resolvable st' line) /\
  ((forall k utterText voice, In OnEnd (respond h k utterText voice)) ->
   let r := readAloud h st' in
   ending r = Completed /\
   List.length (utterances (effects r)) = List.length (plan (text st)) /\
   currentLineIndex (final r) = None).
Proof.
  intros Hv Ht st' Hne.
  destruct (populate_selected_uris h st Hv Hne) as [H1 H2]. fold st' in H1, H2.
  assert (Hres : forall u, uri_of (voices st') u -> exists v, find_voice st' u = Some v).
  { intros u (w & Hw & ->). rewrite find_voice_by_uri.
    destruct (find_by_uri_of_member _ _ Hw) as (v & Hf & _). now exists v. }
  assert (Hall : forall line, resolvable st' line).
  { intros line. unfold resolvable, resolve_line.
    destruct (JsString.startsWith line (js "Speaker 1:"));
      [|destruct (JsString.startsWith line (js "Speaker 2:"))]; cbn [snd]; now apply Hres. }
  split; [exact Hall|]. intros Hend. cbv zeta.
  assert (Ht' : text st' = text st) by apply populate_text.
  rewrite readAloud_started by (rewrite ?Ht'; assumption).
  destruct (readAloud_from_completes h st' (plan (text st')) 0
              (set_errorMessage MsgEmpty st') (same_selection_refl st'))
    as (He & Hc & _ & Heff).
  { apply Forall_forall. intros line _. apply Hall. }
  { exact Hend. }
  cbv zeta in *. fields. split; [exact He|]. split; [|exact Hc].
  rewrite Heff, !utterances_app, utterances_cancel. cbn [utterances app].
  rewrite app_nil_r, utterances_dispatch_effects, length_map, Ht'; [reflexivity|].
  apply Forall_forall. intros line _. apply Hall.
Qed.

Lemma populate_then_readAloud_witness :
  let st' := populateVoiceList edge_host
               (mkState two_lines [] UriNull UriNull MsgEmpty None) in
  resolvable st' (js "Speaker 2: Ni hao") /\
  ending (readAloud edge_host st') = Completed.
Proof.
  destruct (populate_then_readAloud edge_host
              (mkState two_lines [] UriNull UriNull MsgEmpty None))
    as (Hall & Hrun).
  - reflexivity.
  - discriminate.
  - vm_compute. discriminate.
  - cbv zeta. split; [apply Hall|]. apply Hrun. intros k u v. now left.
Defined.
